(** * ring_buffer: a shallow embedding of the mutex-guarded ring buffer

    The Go package [buffer] implements a fixed-capacity ring buffer
    [ringBuffer[T]] whose every method runs under one [sync.RWMutex].
    The embedding below is sequential: a method call is a function from
    the state before the lock is taken to the state when it is released.

    - Go's [int] (64 bits on the platforms Go targets by default) is
      modelled as [Z] with two's complement wrap-around ([wrap]) written
      out at every [++], [--] and [-].
    - A slice [[]T] is a [list T]; an index outside the slice is a run-time
      panic, modelled as [None].
    - The zero value of the type parameter [T] is a type class. *)

From stdpp Require Import base numbers option list.
From Stdlib Require Import ZArith Lia.
From Stdlib Require String.

Local Open Scope Z_scope.

(** ** Go integers *)

Definition min_int : Z := - 2 ^ 63.
Definition max_int : Z := 2 ^ 63 - 1.

Definition wrap (z : Z) : Z := (z + 2 ^ 63) mod 2 ^ 64 - 2 ^ 63.

Definition int_add (a b : Z) : Z := wrap (a + b).
Definition int_sub (a b : Z) : Z := wrap (a - b).

(** ** Zero values *)

Class GoZero (T : Type) := zero_val : T.

#[global] Instance int_GoZero : GoZero Z := 0.
#[global] Instance bool_GoZero : GoZero bool := false.
#[global] Instance string_GoZero : GoZero String.string := String.EmptyString.

(** ** Slices *)

Definition in_range {T : Type} (s : list T) (i : Z) : bool :=
  (0 <=? i) && (i <? Z.of_nat (length s)).

(** [s[i]] as an expression. *)
Definition slice_get {T : Type} (s : list T) (i : Z) : option T :=
  if in_range s i then s !! Z.to_nat i else None.

(** [s[i] = x] as a statement. *)
Definition slice_set {T : Type} (s : list T) (i : Z) (x : T) : option (list T) :=
  if in_range s i then Some (<[Z.to_nat i := x]> s) else None.

(** [cap(s)] of a slice made by [make([]T, n)] and never resliced. *)
Definition slice_cap {T : Type} (s : list T) : Z := Z.of_nat (length s).

(** ** Errors *)

Inductive error : Set :=
  | ErrInvalidBuffCap
  | ErrBufferIsFull.

(** ** The buffer *)

Record ringBuffer (T : Type) : Type := mkRingBuffer {
  data : list T;
  size : Z;
  cap : Z;
  writerIdx : Z;
  readerIdx : Z;
  lastWriterIdx : Z;
  wrapped : bool
}.

Arguments mkRingBuffer {T} _ _ _ _ _ _ _.
Arguments data {T} _.
Arguments size {T} _.
Arguments cap {T} _.
Arguments writerIdx {T} _.
Arguments readerIdx {T} _.
Arguments lastWriterIdx {T} _.
Arguments wrapped {T} _.

Section Buffer.
Context {T : Type} `{GoZero T}.

Local Abbreviation rbuf := (ringBuffer T).

(** Field assignments. *)
Definition set_data (rb : rbuf) (d : list T) : rbuf :=
  mkRingBuffer d (size rb) (cap rb) (writerIdx rb) (readerIdx rb)
               (lastWriterIdx rb) (wrapped rb).
Definition set_size (rb : rbuf) (n : Z) : rbuf :=
  mkRingBuffer (data rb) n (cap rb) (writerIdx rb) (readerIdx rb)
               (lastWriterIdx rb) (wrapped rb).
Definition set_writerIdx (rb : rbuf) (i : Z) : rbuf :=
  mkRingBuffer (data rb) (size rb) (cap rb) i (readerIdx rb)
               (lastWriterIdx rb) (wrapped rb).
Definition set_readerIdx (rb : rbuf) (i : Z) : rbuf :=
  mkRingBuffer (data rb) (size rb) (cap rb) (writerIdx rb) i
               (lastWriterIdx rb) (wrapped rb).
Definition set_lastWriterIdx (rb : rbuf) (i : Z) : rbuf :=
  mkRingBuffer (data rb) (size rb) (cap rb) (writerIdx rb) (readerIdx rb)
               i (wrapped rb).
Definition set_wrapped (rb : rbuf) (b : bool) : rbuf :=
  mkRingBuffer (data rb) (size rb) (cap rb) (writerIdx rb) (readerIdx rb)
               (lastWriterIdx rb) b.

(** [shiftIdx(idx *int) bool]: the new value of [*idx] and the result. *)
Definition shiftIdx (rb : rbuf) (idx : Z) : Z * bool :=
  if idx <? int_sub (cap rb) 1 then (int_add idx 1, false) else (0, true).

(** [writeZeroVal(idx int)] *)
Definition writeZeroVal (rb : rbuf) (idx : Z) : option rbuf :=
  d ← slice_set (data rb) idx zero_val;
  let rb := set_data rb d in
  Some (if 0 <? size rb then set_size rb (int_sub (size rb) 1) else rb).

(** [Push(item T)] *)
Definition Push (rb : rbuf) (item : T) : option rbuf :=
  d ← slice_set (data rb) (writerIdx rb) item;
  let rb := set_data rb d in
  let rb := set_lastWriterIdx rb (writerIdx rb) in
  let rb := if size rb <? slice_cap (data rb)
            then set_size rb (int_add (size rb) 1) else rb in
  let '(idx, round) := shiftIdx rb (writerIdx rb) in
  let rb := set_writerIdx rb idx in
  Some (if round then set_wrapped rb true else rb).

(** [Size() int] *)
Definition Size (rb : rbuf) : Z := size rb.

(** [IsEmpty() bool] *)
Definition IsEmpty (rb : rbuf) : bool := Size rb =? 0.

(** [IsFull() bool] *)
Definition IsFull (rb : rbuf) : bool := size rb =? slice_cap (data rb).

(** [TryPush(item T) (err error)] *)
Definition TryPush (rb : rbuf) (item : T) : option (rbuf * option error) :=
  if IsFull rb then Some (rb, Some ErrBufferIsFull)
  else rb' ← Push rb item; Some (rb', None).

(** [Pop() (T, bool)] *)
Definition Pop (rb : rbuf) : option (rbuf * (T * bool)) :=
  if size rb =? 0 then Some (rb, (zero_val, false))
  else
    item ← slice_get (data rb) (readerIdx rb);
    rb ← writeZeroVal rb (readerIdx rb);
    let '(idx, round) := shiftIdx rb (readerIdx rb) in
    let rb := set_readerIdx rb idx in
    Some (if round then set_wrapped rb false else rb, (item, true)).

(** [Get() (T, bool)] *)
Definition Get (rb : rbuf) : option (T * bool) :=
  if size rb =? 0 then Some (zero_val, false)
  else item ← slice_get (data rb) (readerIdx rb); Some (item, true).

(** [Clear()] *)
Definition Clear (rb : rbuf) : rbuf :=
  if IsEmpty rb then rb
  else
    let rb := set_writerIdx rb 0 in
    let rb := set_readerIdx rb 0 in
    let rb := set_lastWriterIdx rb 0 in
    let rb := set_wrapped rb false in
    set_size rb 0.

(** The loop [for i := 0; i < cap(rb.data); i++ { rb.writeZeroVal(i) }],
    entered at [i].  [fuel] bounds the number of iterations; [None] is a
    panic of the body or an exhausted bound. *)
Fixpoint zero_loop (fuel : nat) (i : Z) (rb : rbuf) : option rbuf :=
  if i <? slice_cap (data rb) then
    match fuel with
    | O => None
    | S fuel' => rb' ← writeZeroVal rb i; zero_loop fuel' (int_add i 1) rb'
    end
  else Some rb.

(** [DeepClear()] *)
Definition DeepClear (rb : rbuf) : option rbuf :=
  if IsEmpty rb then Some rb
  else zero_loop (length (data rb)) 0 rb.

(** [New[T any](capacity int) (rb *ringBuffer[T], err error)] *)
Definition New (capacity : Z) : option rbuf * option error :=
  if capacity <? 1 then (None, Some ErrInvalidBuffCap)
  else (Some (mkRingBuffer (replicate (Z.to_nat capacity) zero_val)
                           0 capacity 0 0 0 false),
        None).

(** ** Sequences of calls *)

Inductive op : Type :=
  | OpPush (item : T)
  | OpTryPush (item : T)
  | OpPop
  | OpGet
  | OpClear
  | OpDeepClear
  | OpIsEmpty
  | OpIsFull
  | OpSize.

(** The state a call leaves behind; [None] when the call panics. *)
Definition step (rb : rbuf) (o : op) : option rbuf :=
  match o with
  | OpPush item => Push rb item
  | OpTryPush item => fst <$> TryPush rb item
  | OpPop => fst <$> Pop rb
  | OpGet => _ ← Get rb; Some rb
  | OpClear => Some (Clear rb)
  | OpDeepClear => DeepClear rb
  | OpIsEmpty | OpIsFull | OpSize => Some rb
  end.

Fixpoint run (rb : rbuf) (ops : list op) : option rbuf :=
  match ops with
  | [] => Some rb
  | o :: ops' => rb' ← step rb o; run rb' ops'
  end.

(** The calls [ops] made on the buffer [New(capacity)] returns. *)
Definition from_New (capacity : Z) (ops : list op) : option rbuf :=
  match New capacity with
  | (Some rb, None) => run rb ops
  | _ => None
  end.

(** Up to [n] calls of [Pop], stopping at the first that reports empty:
    the final state and the items returned with [ok = true]. *)
Fixpoint PopN (n : nat) (rb : rbuf) : option (rbuf * list T) :=
  match n with
  | O => Some (rb, [])
  | S n' =>
      '(rb1, (item, ok)) ← Pop rb;
      if ok : bool then '(rb2, items) ← PopN n' rb1; Some (rb2, item :: items)
      else Some (rb1, [])
  end.

(** [Clear()] as the earlier revision in buffer.go has it: the loop that
    the later revision keeps under the name [DeepClear]. *)
Definition Clear_zeroing (rb : rbuf) : option rbuf :=
  if IsEmpty rb then Some rb
  else zero_loop (length (data rb)) 0 rb.

(** ** Bounds on the fields *)

Definition bounds (rb : rbuf) : Prop :=
  0 <= size rb <= cap rb /\
  0 <= writerIdx rb < cap rb /\
  0 <= readerIdx rb < cap rb.

(** A state of a buffer constructed with capacity [c]. *)
Record wf (c : Z) (rb : rbuf) : Prop := mk_wf {
  wf_capacity : 1 <= c <= max_int;
  wf_cap : cap rb = c;
  wf_len : slice_cap (data rb) = c;
  wf_size : 0 <= size rb <= c;
  wf_writer : 0 <= writerIdx rb < c;
  wf_reader : 0 <= readerIdx rb < c
}.

(** ** Live slots

    A slot is live when a value was pushed into it and has been neither
    popped nor cleared since.  [live_step] follows one call on a vector of
    flags, one per slot, kept beside the buffer. *)

Definition live_step (rb : rbuf) (lv : list bool) (o : op) : list bool :=
  match o with
  | OpPush _ => <[Z.to_nat (writerIdx rb) := true]> lv
  | OpTryPush _ =>
      if IsFull rb then lv else <[Z.to_nat (writerIdx rb) := true]> lv
  | OpPop =>
      if size rb =? 0 then lv else <[Z.to_nat (readerIdx rb) := false]> lv
  | OpClear | OpDeepClear =>
      if IsEmpty rb then lv else replicate (length lv) false
  | OpGet | OpIsEmpty | OpIsFull | OpSize => lv
  end.

Fixpoint run_live (rb : rbuf) (lv : list bool) (ops : list op)
  : option (rbuf * list bool) :=
  match ops with
  | [] => Some (rb, lv)
  | o :: ops' => rb' ← step rb o; run_live rb' (live_step rb lv o) ops'
  end.

Definition from_New_live (capacity : Z) (ops : list op)
  : option (rbuf * list bool) :=
  match New capacity with
  | (Some rb, None) => run_live rb (replicate (length (data rb)) false) ops
  | _ => None
  end.

(** Slot [i] lies in the window [[r, w)] taken modulo the capacity. *)
Definition in_window (r w i : Z) : bool :=
  if r <? w then (r <=? i) && (i <? w)
  else if w <? r then (r <=? i) || (i <? w)
  else false.

(** The flags the window rule prescribes for a state. *)
Definition window_flags (rb : rbuf) : list bool :=
  let n := Z.to_nat (cap rb) in
  if size rb =? 0 then replicate n false
  else if size rb =? cap rb then replicate n true
  else (fun i : nat => in_window (readerIdx rb) (writerIdx rb) (Z.of_nat i))
         <$> seq 0 n.

(** A call that neither pushes onto a full buffer nor deep-clears a
    non-empty one. *)
Definition keeps_window (rb : rbuf) (o : op) : bool :=
  match o with
  | OpPush _ => negb (IsFull rb)
  | OpDeepClear => IsEmpty rb
  | _ => true
  end.

Fixpoint run_keeps_window (rb : rbuf) (ops : list op) : bool :=
  match ops with
  | [] => true
  | o :: ops' =>
      keeps_window rb o &&
      match step rb o with
      | Some rb' => run_keeps_window rb' ops'
      | None => false
      end
  end.

Definition from_New_keeps_window (capacity : Z) (ops : list op) : bool :=
  match New capacity with
  | (Some rb, None) => run_keeps_window rb ops
  | _ => false
  end.

(** Distance from the read cursor [r] forward to slot [i], around the end. *)
Definition ahead (c r i : Z) : Z := if r <=? i then i - r else i - r + c.

(** The write cursor is [size] slots ahead of the read cursor, and the live
    slots are the [size] slots from the read cursor on. *)
Record window_inv (c : Z) (rb : rbuf) (lv : list bool) : Prop := mk_window_inv {
  wi_wf : wf c rb;
  wi_len : length lv = Z.to_nat c;
  wi_writer :
    writerIdx rb =
      if readerIdx rb + size rb <? c then readerIdx rb + size rb
      else readerIdx rb + size rb - c;
  wi_live :
    forall i : nat, (i < Z.to_nat c)%nat ->
      lv !! i = Some (ahead c (readerIdx rb) (Z.of_nat i) <? size rb)
}.

End Buffer.

Arguments op T : clear implicits.
Arguments wf_capacity {T c rb} _.
Arguments wf_cap {T c rb} _.
Arguments wf_len {T c rb} _.
Arguments wf_size {T c rb} _.
Arguments wf_writer {T c rb} _.
Arguments wf_reader {T c rb} _.

(** * The buffer as a queue *)

Section Abstraction.
Context {T : Type} `{GoZero T}.

Local Abbreviation rbuf := (ringBuffer T).

(** The slot [j] steps after slot [r], around the end of [c] slots. *)
Definition slot (c r j : Z) : Z := if r + j <? c then r + j else r + j - c.

(** What [size] successive reads from the read cursor on would see: the
    slice laid out twice, entered at [readerIdx], cut after [size] items. *)
Definition contents (rb : rbuf) : list T :=
  take (Z.to_nat (size rb))
       (drop (Z.to_nat (readerIdx rb)) (data rb ++ data rb)).

(** The write cursor is [size] slots after the read cursor. *)
Record cursor_inv (c : Z) (rb : rbuf) : Prop := mk_cursor_inv {
  ci_wf : wf c rb;
  ci_writer : writerIdx rb = slot c (readerIdx rb) (size rb)
}.

(** A first-in first-out queue of at most [c] items, call by call.  [Push]
    is only followed while there is room. *)
Definition queue_step (c : Z) (q : list T) (o : op T) : list T :=
  match o with
  | OpPush item => q ++ [item]
  | OpTryPush item => if Z.of_nat (length q) <? c then q ++ [item] else q
  | OpPop => drop 1 q
  | OpClear | OpDeepClear => []
  | OpGet | OpIsEmpty | OpIsFull | OpSize => q
  end.

Definition queue_run (c : Z) (q : list T) (ops : list (op T)) : list T :=
  foldl (queue_step c) q ops.

(** A call other than [Push] and [DeepClear]. *)
Definition no_overwrite_op (o : op T) : bool :=
  match o with
  | OpPush _ | OpDeepClear => false
  | _ => true
  end.

(** The outcome of each of a series of [TryPush] calls, with the state
    after the last. *)
Fixpoint TryPush_all (rb : rbuf) (xs : list T)
  : option (rbuf * list (option error)) :=
  match xs with
  | [] => Some (rb, [])
  | x :: xs' =>
      '(rb1, e) ← TryPush rb x;
      '(rb2, es) ← TryPush_all rb1 xs';
      Some (rb2, e :: es)
  end.

(** ** The earlier revision (buffer.go)

    Its interface has no [TryPush] and no [DeepClear]; its [Clear] is the
    zeroing loop.  The other methods have the same bodies. *)

Inductive op_go : Type :=
  | GoPush (item : T)
  | GoPop
  | GoGet
  | GoClear
  | GoIsEmpty
  | GoIsFull
  | GoSize.

Definition step_go (rb : rbuf) (o : op_go) : option rbuf :=
  match o with
  | GoPush item => Push rb item
  | GoPop => fst <$> Pop rb
  | GoGet => _ ← Get rb; Some rb
  | GoClear => Clear_zeroing rb
  | GoIsEmpty | GoIsFull | GoSize => Some rb
  end.

Fixpoint run_go (rb : rbuf) (ops : list op_go) : option rbuf :=
  match ops with
  | [] => Some rb
  | o :: ops' => rb' ← step_go rb o; run_go rb' ops'
  end.

Definition from_New_go (capacity : Z) (ops : list op_go) : option rbuf :=
  match New capacity with
  | (Some rb, None) => run_go rb ops
  | _ => None
  end.

End Abstraction.

Arguments op_go T : clear implicits.
Arguments ci_wf {T c rb} _.
Arguments ci_writer {T c rb} _.

(** * Proof automation *)

(** Turns every integer comparison of the goal and of the hypotheses into
    the order fact it reflects. *)
Ltac zbool :=
  repeat match goal with
  | |- context [?a <? ?b] => destruct (Z.ltb_spec a b)
  | |- context [?a <=? ?b] => destruct (Z.leb_spec a b)
  | |- context [?a =? ?b] => destruct (Z.eqb_spec a b)
  | H : context [?a <? ?b] |- _ => destruct (Z.ltb_spec a b)
  | H : context [?a <=? ?b] |- _ => destruct (Z.leb_spec a b)
  | H : context [?a =? ?b] |- _ => destruct (Z.eqb_spec a b)
  end.

(** * Go integers: no wrap inside the range *)

Lemma wrap_small (z : Z) : min_int <= z <= max_int -> wrap z = z.
Proof.
  unfold wrap, min_int, max_int. intros Hz.
  rewrite Z.mod_small by lia. lia.
Qed.

Lemma int_add_small (a b : Z) :
  min_int <= a + b <= max_int -> int_add a b = a + b.
Proof. apply wrap_small. Qed.

Lemma int_sub_small (a b : Z) :
  min_int <= a - b <= max_int -> int_sub a b = a - b.
Proof. apply wrap_small. Qed.

Lemma min_int_neg : min_int < 0.
Proof. reflexivity. Qed.

(** * Slices *)

Section SliceFacts.
Context {T : Type}.
Implicit Types (s : list T) (i : Z) (x : T).

Lemma in_range_true s i :
  in_range s i = true <-> 0 <= i < slice_cap s.
Proof. unfold in_range, slice_cap. rewrite andb_true_iff. lia. Qed.

Lemma slice_set_Some s i x :
  0 <= i < slice_cap s -> slice_set s i x = Some (<[Z.to_nat i := x]> s).
Proof.
  intros Hi. unfold slice_set.
  by rewrite (proj2 (in_range_true s i) Hi).
Qed.

Lemma slice_get_Some s i :
  0 <= i < slice_cap s ->
  exists x, s !! Z.to_nat i = Some x /\ slice_get s i = Some x.
Proof.
  intros Hi. unfold slice_get.
  rewrite (proj2 (in_range_true s i) Hi).
  destruct (lookup_lt_is_Some_2 s (Z.to_nat i)) as [x Hx].
  - unfold slice_cap in Hi. lia.
  - exists x. by rewrite Hx.
Qed.

Lemma slice_cap_insert s (n : nat) x : slice_cap (<[n := x]> s) = slice_cap s.
Proof. unfold slice_cap. by rewrite length_insert. Qed.

End SliceFacts.

(** * The methods one by one *)

Section MethodFacts.
Context {T : Type} `{GoZero T}.
Implicit Types (rb : ringBuffer T) (item : T).

Lemma IsFull_true rb : IsFull rb = true <-> size rb = slice_cap (data rb).
Proof. unfold IsFull. apply Z.eqb_eq. Qed.

Lemma IsEmpty_true rb : IsEmpty rb = true <-> size rb = 0.
Proof. unfold IsEmpty, Size. apply Z.eqb_eq. Qed.

Lemma IsEmpty_false rb : IsEmpty rb = false <-> size rb <> 0.
Proof. unfold IsEmpty, Size. apply Z.eqb_neq. Qed.

(** [shiftIdx] without wrap-around, for a capacity [New] accepts. *)
Lemma shiftIdx_small c rb idx :
  1 <= c <= max_int -> cap rb = c -> 0 <= idx < c ->
  shiftIdx rb idx = if idx <? c - 1 then (idx + 1, false) else (0, true).
Proof.
  intros Hc Hcap Hidx. unfold shiftIdx. pose proof min_int_neg.
  rewrite Hcap, int_sub_small by lia.
  destruct (idx <? c - 1) eqn:E; [|done].
  apply Z.ltb_lt in E. by rewrite int_add_small by lia.
Qed.

(** [Push] on a buffer made by [New], with the arithmetic carried out. *)
Lemma Push_wf c rb item :
  wf c rb ->
  Push rb item =
    Some (mkRingBuffer (<[Z.to_nat (writerIdx rb) := item]> (data rb))
            (if size rb <? c then size rb + 1 else size rb)
            c
            (if writerIdx rb <? c - 1 then writerIdx rb + 1 else 0)
            (readerIdx rb)
            (writerIdx rb)
            (if writerIdx rb <? c - 1 then wrapped rb else true)).
Proof.
  intros Hwf.
  pose proof (wf_capacity Hwf) as Hc. pose proof (wf_size Hwf) as Hs.
  pose proof (wf_writer Hwf) as Hw. pose proof (wf_len Hwf) as Hl.
  pose proof (wf_cap Hwf) as Hcap. pose proof min_int_neg.
  unfold Push. rewrite slice_set_Some by lia. cbn.
  rewrite slice_cap_insert, Hl.
  destruct (size rb <? c) eqn:Es;
    [apply Z.ltb_lt in Es; rewrite int_add_small by lia|];
    rewrite (shiftIdx_small c) by (cbn; lia); cbn;
    destruct (writerIdx rb <? c - 1); cbn; by rewrite <- Hcap.
Qed.

(** [Pop] on a non-empty buffer made by [New]. *)
Lemma Pop_wf c rb :
  wf c rb -> 0 < size rb ->
  exists item,
    data rb !! Z.to_nat (readerIdx rb) = Some item /\
    Pop rb =
      Some (mkRingBuffer (<[Z.to_nat (readerIdx rb) := zero_val]> (data rb))
              (size rb - 1)
              c
              (writerIdx rb)
              (if readerIdx rb <? c - 1 then readerIdx rb + 1 else 0)
              (lastWriterIdx rb)
              (if readerIdx rb <? c - 1 then wrapped rb else false),
            (item, true)).
Proof.
  intros Hwf Hpos.
  pose proof (wf_capacity Hwf) as Hc. pose proof (wf_size Hwf) as Hs.
  pose proof (wf_reader Hwf) as Hr. pose proof (wf_len Hwf) as Hl.
  pose proof (wf_cap Hwf) as Hcap. pose proof min_int_neg.
  destruct (slice_get_Some (data rb) (readerIdx rb)) as (item & Hit & Hget);
    [lia|].
  exists item. split; [done|].
  unfold Pop. destruct (size rb =? 0) eqn:E0; [apply Z.eqb_eq in E0; lia|].
  rewrite Hget. cbn. unfold writeZeroVal.
  rewrite slice_set_Some by lia. cbn.
  destruct (0 <? size rb) eqn:E1; [|apply Z.ltb_ge in E1; lia].
  rewrite int_sub_small by lia.
  rewrite (shiftIdx_small c) by (cbn; lia). cbn.
  destruct (readerIdx rb <? c - 1); cbn; by rewrite <- Hcap.
Qed.

Lemma Pop_size_0 rb : size rb = 0 -> Pop rb = Some (rb, (zero_val, false)).
Proof. intros E. unfold Pop. by rewrite E. Qed.

Lemma Get_size_0 rb : size rb = 0 -> Get rb = Some (zero_val, false).
Proof. intros E. unfold Get. by rewrite E. Qed.

Lemma Get_wf c rb :
  wf c rb -> 0 < size rb ->
  exists item,
    data rb !! Z.to_nat (readerIdx rb) = Some item /\
    Get rb = Some (item, true).
Proof.
  intros Hwf Hpos.
  pose proof (wf_reader Hwf) as Hr. pose proof (wf_len Hwf) as Hl.
  destruct (slice_get_Some (data rb) (readerIdx rb)) as (item & Hit & Hget);
    [lia|].
  exists item. split; [done|].
  unfold Get. destruct (size rb =? 0) eqn:E0; [apply Z.eqb_eq in E0; lia|].
  by rewrite Hget.
Qed.

Lemma Clear_nonempty rb :
  size rb <> 0 -> Clear rb = mkRingBuffer (data rb) 0 (cap rb) 0 0 0 false.
Proof.
  intros E. unfold Clear. by rewrite (proj2 (IsEmpty_false rb) E).
Qed.

Lemma Clear_empty rb : size rb = 0 -> Clear rb = rb.
Proof. intros E. unfold Clear. by rewrite (proj2 (IsEmpty_true rb) E). Qed.

Lemma Push_panics rb item :
  in_range (data rb) (writerIdx rb) = false -> Push rb item = None.
Proof. intros E. unfold Push, slice_set. by rewrite E. Qed.

Lemma run_only_Pop_Get_empty rb (ops : list (op T)) :
  size rb = 0 ->
  Forall (fun o => o = OpPop \/ o = OpGet) ops ->
  run rb ops = Some rb.
Proof.
  intros E Hops. induction Hops as [|o ops [-> | ->] _ IH]; [done| |]; cbn.
  - by rewrite Pop_size_0.
  - by rewrite Get_size_0.
Qed.

(** C7.  [New(capacity)] fails with [ErrInvalidBuffCap] and returns no
    buffer exactly when [capacity < 1]; for every other capacity it returns,
    without error, a buffer of [capacity] slots that all hold the zero value,
    with size 0, both cursors (and the last-write index) 0 and the wrapped
    flag false. *)
Theorem New_spec (capacity : Z) :
  (capacity < 1 <-> New (T := T) capacity = (None, Some ErrInvalidBuffCap)) /\
  (1 <= capacity <->
   New capacity =
     (Some (mkRingBuffer (replicate (Z.to_nat capacity) zero_val)
              0 capacity 0 0 0 false),
      None)) /\
  (1 <= capacity ->
   forall rb, New capacity = (Some rb, None) ->
     slice_cap (data rb) = capacity /\
     (forall i x, data rb !! i = Some x -> x = zero_val)).
Proof.
  unfold New. destruct (capacity <? 1) eqn:E.
  - apply Z.ltb_lt in E.
    split; [done|]. split; [split; [lia|done]|]. lia.
  - apply Z.ltb_ge in E.
    split; [split; [lia|done]|]. split; [done|].
    intros _ rb [= <-]. cbn. split.
    + unfold slice_cap. rewrite length_replicate. lia.
    + by intros i x [-> _]%lookup_replicate.
Qed.

(** C6.  On every buffer with [size == 0], [Pop()] and [Get()] return the
    zero value with [ok == false], neither panics, and [Pop] hands back the
    very state it was given; hence any sequence of such calls leaves the
    state as it was and each of them answers the same. *)
Theorem Pop_Get_empty rb :
  size rb = 0 ->
  Pop rb = Some (rb, (zero_val, false)) /\
  Get rb = Some (zero_val, false) /\
  (forall ops : list (op T),
     Forall (fun o => o = OpPop \/ o = OpGet) ops -> run rb ops = Some rb).
Proof.
  intros E. split; [by apply Pop_size_0|]. split; [by apply Get_size_0|].
  intros ops. by apply run_only_Pop_Get_empty.
Qed.

(** C5.  [TryPush(x)] returns [ErrBufferIsFull] exactly when the buffer is
    full ([size == cap(data)]), and then the whole state is unchanged; when
    the buffer is not full it is [Push(x)] followed by [return nil], which on
    a buffer made by [New] does not panic. *)
Theorem TryPush_spec rb item :
  (IsFull rb = true <-> size rb = slice_cap (data rb)) /\
  (IsFull rb = true <->
   exists rb', TryPush rb item = Some (rb', Some ErrBufferIsFull)) /\
  (forall rb', TryPush rb item = Some (rb', Some ErrBufferIsFull) -> rb' = rb) /\
  (IsFull rb = false ->
   TryPush rb item = (rb' ← Push rb item; Some (rb', None))) /\
  (forall c, wf c rb -> IsFull rb = false ->
   exists rb', Push rb item = Some rb' /\ TryPush rb item = Some (rb', None)).
Proof.
  split; [apply IsFull_true|]. unfold TryPush.
  destruct (IsFull rb) eqn:E.
  - repeat split; try done.
    + intros _. by exists rb.
    + by intros rb' [= <-].
  - repeat split; try done.
    + intros [rb' Hrb']. destruct (Push rb item); done.
    + intros rb' Hrb'. destruct (Push rb item); done.
    + intros c Hwf _. rewrite (Push_wf c) by done. eauto.
Qed.

(** C4.  [Clear()] on an empty buffer returns the state as it is; on a
    non-empty buffer it sets the write cursor, the read cursor and the
    last-write index to 0, the wrapped flag to false and the size to 0, and
    leaves the slots and the capacity untouched. *)
Theorem Clear_spec rb :
  (size rb = 0 -> Clear rb = rb) /\
  (size rb <> 0 ->
   Clear rb = mkRingBuffer (data rb) 0 (cap rb) 0 0 0 false) /\
  data (Clear rb) = data rb.
Proof.
  split; [apply Clear_empty|]. split; [apply Clear_nonempty|].
  unfold Clear. by destruct (IsEmpty rb).
Qed.

(** C10.  A [Push(x)] whose write cursor lies inside the slice stores [x]
    in the slot at the pre-call write cursor and changes no other slot; the
    number of slots, the read cursor and the capacity stay as they were. *)
Theorem Push_frame rb item :
  0 <= writerIdx rb < slice_cap (data rb) ->
  exists rb',
    Push rb item = Some rb' /\
    data rb' = <[Z.to_nat (writerIdx rb) := item]> (data rb) /\
    data rb' !! Z.to_nat (writerIdx rb) = Some item /\
    (forall i : nat,
       i <> Z.to_nat (writerIdx rb) -> data rb' !! i = data rb !! i) /\
    length (data rb') = length (data rb) /\
    readerIdx rb' = readerIdx rb /\
    cap rb' = cap rb.
Proof.
  intros Hw. unfold Push. rewrite slice_set_Some by done. cbn.
  destruct (shiftIdx _ _) as [idx round] eqn:Esh.
  eexists. split; [done|].
  assert (Hlen : (Z.to_nat (writerIdx rb) < length (data rb))%nat)
    by (unfold slice_cap in Hw; lia).
  destruct round, (size rb <? _); cbn;
    (split; [done|]);
    (split; [by apply list_lookup_insert_eq|]);
    (split; [intros i Hi; by apply list_lookup_insert_ne|]);
    (split; [by apply length_insert|]); done.
Qed.

End MethodFacts.

(** * The zeroing loop *)

Section ZeroLoop.
Context {T : Type} `{GoZero T}.
Implicit Types (rb : ringBuffer T).

Lemma writeZeroVal_in_range rb idx :
  0 <= idx < slice_cap (data rb) ->
  writeZeroVal rb idx =
    Some (mkRingBuffer (<[Z.to_nat idx := zero_val]> (data rb))
            (if 0 <? size rb then int_sub (size rb) 1 else size rb)
            (cap rb) (writerIdx rb) (readerIdx rb) (lastWriterIdx rb)
            (wrapped rb)).
Proof.
  intros Hi. unfold writeZeroVal. rewrite slice_set_Some by done. cbn.
  by destruct (0 <? size rb).
Qed.

(** [k] iterations remain when the loop is entered at [i]: they zero the
    slots from [i] on and take up to [k] off the size. *)
Lemma zero_loop_spec (k : nat) :
  forall rb (i : Z) (fuel : nat),
    slice_cap (data rb) <= max_int ->
    0 <= i ->
    i + Z.of_nat k = slice_cap (data rb) ->
    (k <= fuel)%nat ->
    exists rb',
      zero_loop fuel i rb = Some rb' /\
      data rb' = take (Z.to_nat i) (data rb) ++ replicate k zero_val /\
      cap rb' = cap rb /\
      writerIdx rb' = writerIdx rb /\
      readerIdx rb' = readerIdx rb /\
      lastWriterIdx rb' = lastWriterIdx rb /\
      wrapped rb' = wrapped rb /\
      (0 <= size rb <= max_int -> size rb' = Z.max 0 (size rb - Z.of_nat k)).
Proof.
  induction k as [|k IH]; intros rb i fuel Hmax Hi Hik Hfuel.
  - exists rb.
    assert (E : (i <? slice_cap (data rb)) = false) by (apply Z.ltb_ge; lia).
    split; [destruct fuel; cbn; by rewrite E|].
    split; [|repeat split; try done; lia].
    rewrite take_ge, app_nil_r; [done|]. unfold slice_cap in Hik. lia.
  - destruct fuel as [|fuel]; [lia|].
    assert (E : (i <? slice_cap (data rb)) = true) by (apply Z.ltb_lt; lia).
    cbn [zero_loop]. rewrite E.
    rewrite writeZeroVal_in_range by lia. cbn.
    pose proof min_int_neg.
    rewrite int_add_small by lia.
    set (rb1 := mkRingBuffer _ _ _ _ _ _ _).
    destruct (IH rb1 (i + 1) fuel)
      as (rb' & Hrun & Hdata & Hcap & Hw & Hr & Hlw & Hwr & Hsize).
    + subst rb1. cbn. by rewrite slice_cap_insert.
    + lia.
    + subst rb1. cbn. rewrite slice_cap_insert. lia.
    + lia.
    + exists rb'. split; [done|].
      assert (Hlt : (Z.to_nat i < length (data rb))%nat)
        by (unfold slice_cap in Hik; lia).
      split.
      { rewrite Hdata. subst rb1. cbn.
        replace (Z.to_nat (i + 1)) with (S (Z.to_nat i)) by lia.
        rewrite (take_S_r _ _ zero_val)
          by (by apply list_lookup_insert_eq).
        rewrite take_insert_ge by lia.
        by rewrite <- app_assoc. }
      repeat split; try done.
      intros Hs. subst rb1. cbn in Hsize.
      destruct (0 <? size rb) eqn:E0.
      * apply Z.ltb_lt in E0. rewrite int_sub_small in Hsize by lia.
        rewrite Hsize by lia. lia.
      * apply Z.ltb_ge in E0. rewrite Hsize by lia. lia.
Qed.

Lemma DeepClear_empty rb : size rb = 0 -> DeepClear rb = Some rb.
Proof. intros E. unfold DeepClear. by rewrite (proj2 (IsEmpty_true rb) E). Qed.

Lemma DeepClear_nonempty rb :
  slice_cap (data rb) <= max_int ->
  size rb <> 0 ->
  exists rb',
    DeepClear rb = Some rb' /\
    data rb' = replicate (length (data rb)) zero_val /\
    cap rb' = cap rb /\
    writerIdx rb' = writerIdx rb /\
    readerIdx rb' = readerIdx rb /\
    (0 <= size rb <= slice_cap (data rb) -> size rb' = 0).
Proof.
  intros Hmax Hne. unfold DeepClear.
  rewrite (proj2 (IsEmpty_false rb) Hne).
  destruct (zero_loop_spec (length (data rb)) rb 0 (length (data rb)))
    as (rb' & Hrun & Hdata & Hcap & Hw & Hr & _ & _ & Hsize);
    [done|lia|unfold slice_cap; lia|lia|].
  exists rb'. repeat split; try done.
  intros Hs. unfold slice_cap in *. rewrite Hsize by lia. lia.
Qed.

(** The earlier revision's [Clear] is the later revision's [DeepClear]. *)
Remark Clear_zeroing_is_DeepClear rb : Clear_zeroing rb = DeepClear rb.
Proof. reflexivity. Qed.

End ZeroLoop.

(** * States reachable from [New] *)

Section Reachable.
Context {T : Type} `{GoZero T}.
Implicit Types (rb : ringBuffer T) (o : op T) (ops : list (op T)).

Lemma New_wf c :
  1 <= c <= max_int ->
  New c = (Some (mkRingBuffer (replicate (Z.to_nat c) zero_val)
                   0 c 0 0 0 false), None) /\
  wf c (mkRingBuffer (replicate (Z.to_nat c) (zero_val : T))
          0 c 0 0 0 false).
Proof.
  intros Hc. split.
  - unfold New. destruct (c <? 1) eqn:E; [apply Z.ltb_lt in E; lia|done].
  - constructor; cbn; try lia.
    unfold slice_cap. rewrite length_replicate. lia.
Qed.

Lemma Push_keeps_wf c rb item :
  wf c rb -> exists rb', Push rb item = Some rb' /\ wf c rb'.
Proof.
  intros Hwf. rewrite (Push_wf c) by done. eexists. split; [done|].
  destruct Hwf as [Hc Hcap Hl Hs Hw Hr].
  constructor; cbn; try done.
  - by rewrite slice_cap_insert.
  - destruct (size rb <? c) eqn:E; [apply Z.ltb_lt in E|]; lia.
  - destruct (writerIdx rb <? c - 1) eqn:E; [apply Z.ltb_lt in E|]; lia.
Qed.

Lemma Pop_keeps_wf c rb :
  wf c rb -> exists rb' res, Pop rb = Some (rb', res) /\ wf c rb'.
Proof.
  intros Hwf. destruct (decide (size rb = 0)) as [E|E].
  - rewrite Pop_size_0 by done. eauto.
  - pose proof (wf_size Hwf) as Hs.
    destruct (Pop_wf c rb) as (item & _ & ->); [done|lia|].
    eexists _, _. split; [done|].
    destruct Hwf as [Hc Hcap Hl _ Hw Hr].
    constructor; cbn; try done.
    + by rewrite slice_cap_insert.
    + lia.
    + destruct (readerIdx rb <? c - 1) eqn:E'; [apply Z.ltb_lt in E'|]; lia.
Qed.

Lemma Get_total c rb : wf c rb -> exists res, Get rb = Some res.
Proof.
  intros Hwf. destruct (decide (size rb = 0)) as [E|E].
  - rewrite Get_size_0 by done. eauto.
  - pose proof (wf_size Hwf) as Hs.
    destruct (Get_wf c rb) as (item & _ & ->); [done|lia|]. eauto.
Qed.

Lemma Clear_keeps_wf c rb : wf c rb -> wf c (Clear rb).
Proof.
  intros Hwf. destruct (decide (size rb = 0)) as [E|E].
  - by rewrite Clear_empty.
  - rewrite Clear_nonempty by done.
    destruct Hwf as [Hc Hcap Hl _ _ _]. constructor; cbn; try done; lia.
Qed.

Lemma DeepClear_keeps_wf c rb :
  wf c rb -> exists rb', DeepClear rb = Some rb' /\ wf c rb'.
Proof.
  intros Hwf. destruct (decide (size rb = 0)) as [E|E].
  - rewrite DeepClear_empty by done. eauto.
  - destruct Hwf as [Hc Hcap Hl Hs Hw Hr].
    destruct (DeepClear_nonempty rb)
      as (rb' & -> & Hd & Hcap' & Hw' & Hr' & Hs'); [lia|done|].
    exists rb'. split; [done|].
    constructor; try done; try lia.
    rewrite Hd. unfold slice_cap in *. by rewrite length_replicate.
Qed.

Lemma step_keeps_wf c rb o :
  wf c rb -> exists rb', step rb o = Some rb' /\ wf c rb'.
Proof.
  intros Hwf. destruct o as [item|item| | | | | | |]; cbn.
  - by apply Push_keeps_wf.
  - unfold TryPush. destruct (IsFull rb); cbn; [eauto|].
    destruct (Push_keeps_wf c rb item) as (rb' & -> & Hwf'); [done|].
    cbn. eauto.
  - destruct (Pop_keeps_wf c rb) as (rb' & res & -> & Hwf'); [done|].
    cbn. eauto.
  - destruct (Get_total c rb) as (res & ->); [done|]. cbn. eauto.
  - eexists. split; [done|]. by apply Clear_keeps_wf.
  - by apply DeepClear_keeps_wf.
  - eauto.
  - eauto.
  - eauto.
Qed.

Lemma run_keeps_wf c ops :
  forall rb, wf c rb -> exists rb', run rb ops = Some rb' /\ wf c rb'.
Proof.
  induction ops as [|o ops IH]; intros rb Hwf; cbn; [eauto|].
  destruct (step_keeps_wf c rb o) as (rb1 & -> & Hwf1); [done|].
  cbn. by apply IH.
Qed.

Lemma from_New_wf c ops :
  1 <= c <= max_int -> exists rb, from_New c ops = Some rb /\ wf c rb.
Proof.
  intros Hc. unfold from_New.
  destruct (New_wf c Hc) as [-> Hwf]. by apply run_keeps_wf.
Qed.

Lemma run_app rb ops1 ops2 :
  run rb (ops1 ++ ops2) = rb' ← run rb ops1; run rb' ops2.
Proof.
  revert rb. induction ops1 as [|o ops1 IH]; intros rb; cbn; [done|].
  destruct (step rb o); cbn; [apply IH|done].
Qed.

(** C8.  Whatever calls are made on a buffer that [New(c)] returned
    ([1 <= c], [c] an [int]), none panics, and the state they lead to has
    [0 <= size <= cap], [0 <= writerIdx < cap] and [0 <= readerIdx < cap],
    with [cap] and the number of slots both still [c]; so [Size()] never
    exceeds the capacity, after pushes in particular. *)
Theorem bounds_reachable c ops :
  1 <= c <= max_int ->
  exists rb,
    from_New c ops = Some rb /\
    bounds rb /\
    cap rb = c /\
    slice_cap (data rb) = c /\
    Size rb <= c.
Proof.
  intros Hc. destruct (from_New_wf c ops Hc) as (rb & Hrun & Hwf).
  exists rb. destruct Hwf as [_ Hcap Hl Hs Hw Hr].
  unfold bounds, Size. rewrite Hcap. repeat split; try done; lia.
Qed.

(** C9.  In every state reachable from [New(c)] with [size > 0], [Get()]
    and [Pop()] both succeed with [ok == true] and return the same value,
    the one stored in the slot at [readerIdx]. *)
Theorem Pop_Get_agree c ops rb :
  1 <= c <= max_int ->
  from_New c ops = Some rb ->
  0 < size rb ->
  exists item rb',
    data rb !! Z.to_nat (readerIdx rb) = Some item /\
    Get rb = Some (item, true) /\
    Pop rb = Some (rb', (item, true)).
Proof.
  intros Hc Hrun Hpos.
  destruct (from_New_wf c ops Hc) as (rb0 & Hrun0 & Hwf).
  assert (rb0 = rb) as -> by congruence.
  destruct (Pop_wf c rb Hwf Hpos) as (item & Hit & HPop).
  destruct (Get_wf c rb Hwf Hpos) as (item' & Hit' & HGet).
  assert (item' = item) as -> by congruence.
  eauto.
Qed.

(** C3, as the code has it.  [DeepClear()] on a buffer with [size != 0]
    does not panic and leaves the zero value in every one of the slots;
    on a buffer with [size == 0] it returns at once and leaves the state,
    stale slot values included, exactly as it was. *)
Theorem DeepClear_spec rb :
  slice_cap (data rb) <= max_int ->
  (size rb <> 0 ->
   exists rb',
     DeepClear rb = Some rb' /\
     length (data rb') = length (data rb) /\
     data rb' = replicate (length (data rb)) zero_val /\
     (forall i x, data rb' !! i = Some x -> x = zero_val)) /\
  (size rb = 0 -> DeepClear rb = Some rb).
Proof.
  intros Hmax. split; [|apply DeepClear_empty].
  intros Hne.
  destruct (DeepClear_nonempty rb Hmax Hne) as (rb' & Hrun & Hd & _).
  exists rb'. split; [done|]. rewrite Hd.
  split; [by rewrite length_replicate|]. split; [done|].
  by intros i x [-> _]%lookup_replicate.
Qed.

End Reachable.

(** * Pushing past the capacity, then draining *)

Section Overwrite.
Context {T : Type} `{GoZero T}.
Implicit Types (rb : ringBuffer T) (xs : list T).

Lemma succ_mod (n c : nat) :
  (1 <= c)%nat ->
  (S n mod c)%nat = if (S (n mod c) <? c)%nat then S (n mod c) else 0%nat.
Proof.
  intros Hc. pose proof (Nat.mod_upper_bound n c ltac:(lia)) as Hq.
  replace (S n) with (n + 1)%nat by lia.
  rewrite <- Nat.Div0.add_mod_idemp_l.
  destruct (S (n mod c) <? c)%nat eqn:E.
  - apply Nat.ltb_lt in E. rewrite Nat.mod_small; lia.
  - apply Nat.ltb_ge in E.
    replace (n mod c + 1)%nat with c by lia. apply Nat.Div0.mod_same.
Qed.

Lemma insert_last (l : list T) (k : nat) (x : T) :
  length l = S k -> <[k := x]> l = take k l ++ [x].
Proof.
  intros Hl. rewrite insert_take_drop by lia. by rewrite drop_ge by lia.
Qed.

Lemma from_New_app c (ops1 ops2 : list (op T)) :
  from_New c (ops1 ++ ops2) = rb ← from_New c ops1; run rb ops2.
Proof.
  unfold from_New. destruct (New c) as [[rb|] [e|]]; try done.
  apply run_app.
Qed.

(** The state after pushing [xs] onto a new buffer of [c] slots: the write
    cursor is at [length xs mod c], the slots before it hold the newest
    items, the slots from it on hold the items pushed one lap earlier. *)
Lemma run_pushes (c : nat) xs :
  (1 <= c)%nat -> Z.of_nat c <= max_int ->
  exists rb,
    from_New (Z.of_nat c) (OpPush <$> xs) = Some rb /\
    wf (Z.of_nat c) rb /\
    readerIdx rb = 0 /\
    writerIdx rb = Z.of_nat (length xs mod c) /\
    size rb = Z.of_nat (length xs `min` c) /\
    take (length xs mod c) (data rb) =
      drop (length xs - length xs mod c) xs /\
    ((c <= length xs)%nat ->
     drop (length xs mod c) (data rb) =
       take (c - length xs mod c) (drop (length xs - c) xs)).
Proof.
  intros Hc Hmax. induction xs as [|x xs IH] using rev_ind.
  - destruct (New_wf (T := T) (Z.of_nat c)) as [HN Hwf]; [lia|].
    eexists. unfold from_New. rewrite HN. cbn [fmap list_fmap run].
    split; [done|]. split; [done|]. cbn [readerIdx writerIdx size data length].
    rewrite Nat.Div0.mod_0_l. repeat split; try done. lia.
  - destruct IH as (rb & Hrun & Hwf & Hr & Hw & Hs & Htake & Hdrop).
    rewrite fmap_app, from_New_app, Hrun. cbn.
    rewrite (Push_wf (Z.of_nat c)) by done.
    destruct (Push_keeps_wf _ rb x Hwf) as (rb' & HP & Hwf').
    rewrite (Push_wf (Z.of_nat c)) in HP by done.
    injection HP as HP. rewrite HP. exists rb'. split; [done|].
    split; [done|]. rewrite <- HP. cbn [readerIdx writerIdx size data].
    rewrite length_app. cbn [length]. rewrite Nat.add_1_r.
    pose proof (Nat.mod_upper_bound (length xs) c ltac:(lia)) as Hq.
    pose proof (wf_len Hwf) as Hlen. unfold slice_cap in Hlen.
    rewrite succ_mod by done.
    rewrite Hw, Hs, Nat2Z.id.
    set (n := length xs) in *. set (q := (n mod c)%nat) in *.
    split; [done|].
    destruct (S q <? c)%nat eqn:E.
    + apply Nat.ltb_lt in E.
      destruct (Z.of_nat q <? Z.of_nat c - 1) eqn:E1;
        [|apply Z.ltb_ge in E1; lia].
      split; [lia|]. split.
      { destruct (Z.of_nat (n `min` c) <? Z.of_nat c) eqn:E2;
          [apply Z.ltb_lt in E2|apply Z.ltb_ge in E2]; lia. }
      split.
      { rewrite (take_S_r _ _ x) by (apply list_lookup_insert_eq; lia).
        rewrite take_insert_ge by lia. rewrite Htake.
        replace (S n - S q)%nat with (n - q)%nat by lia.
        by rewrite drop_app_le by (fold n; lia). }
      intros Hcn. rewrite drop_insert_lt by lia.
      assert (Hcn' : (c <= n)%nat).
      { destruct (decide (c <= n)%nat) as [|Hlt]; [done|].
        assert (q = n) by (subst q; apply Nat.mod_small; lia). lia. }
      replace (S q) with (q + 1)%nat by lia.
      rewrite <- drop_drop, (Hdrop Hcn').
      replace (c - q)%nat with (1 + (c - S q))%nat by lia.
      rewrite <- take_drop_commute, drop_drop.
      replace (S n - c)%nat with (n - c + 1)%nat by lia.
      rewrite drop_app_le by (fold n; lia).
      rewrite take_app_le by (rewrite length_drop; fold n; lia).
      f_equal. lia.
    + apply Nat.ltb_ge in E. assert (Hqc : S q = c) by lia.
      destruct (Z.of_nat q <? Z.of_nat c - 1) eqn:E1;
        [apply Z.ltb_lt in E1; lia|].
      split; [done|]. split.
      { destruct (Z.of_nat (n `min` c) <? Z.of_nat c) eqn:E2;
          [apply Z.ltb_lt in E2|apply Z.ltb_ge in E2]; lia. }
      split.
      { rewrite take_0, drop_ge; [done|]. rewrite length_app. cbn. fold n. lia. }
      intros _. rewrite drop_0, Nat.sub_0_r.
      rewrite (insert_last _ q) by lia.
      rewrite Htake.
      replace (S n - c)%nat with (n - q)%nat by lia.
      rewrite drop_app_le by (fold n; lia).
      rewrite take_ge; [done|].
      rewrite length_app, length_drop. cbn. fold n. lia.
Qed.

(** Draining [s] items whose slots lie before the end of the slice: the
    pops return them in slot order and leave the buffer empty. *)
Lemma PopN_drain c (s : nat) :
  forall rb,
    wf c rb ->
    size rb = Z.of_nat s ->
    readerIdx rb + Z.of_nat s <= c ->
    exists rb',
      PopN s rb =
        Some (rb', take s (drop (Z.to_nat (readerIdx rb)) (data rb))) /\
      wf c rb' /\
      size rb' = 0.
Proof.
  induction s as [|s IH]; intros rb Hwf Hs Hr.
  - exists rb. cbn. by rewrite take_0.
  - destruct (Pop_wf c rb Hwf) as (item & Hit & HPop); [lia|].
    destruct (Pop_keeps_wf c rb Hwf) as (rb1 & res & HPop' & Hwf1).
    rewrite HPop in HPop'. injection HPop' as Hrb1 _.
    pose proof (wf_reader Hwf) as Hrd.
    cbn [PopN]. rewrite HPop, Hrb1. cbn.
    destruct (IH rb1) as (rb' & Hrun & Hwf' & Hs'); [done| | |].
    + rewrite <- Hrb1. cbn. lia.
    + rewrite <- Hrb1. cbn.
      destruct (readerIdx rb <? c - 1) eqn:E;
        [apply Z.ltb_lt in E|apply Z.ltb_ge in E]; lia.
    + rewrite Hrun. cbn. exists rb'. split; [|done].
      do 2 f_equal.
      rewrite (drop_S _ _ _ Hit). cbn [take]. f_equal.
      destruct s as [|s]; [by rewrite !take_0|].
      rewrite <- Hrb1. cbn [readerIdx data].
      destruct (readerIdx rb <? c - 1) eqn:E;
        [apply Z.ltb_lt in E|apply Z.ltb_ge in E; lia].
      replace (Z.to_nat (readerIdx rb + 1))
        with (S (Z.to_nat (readerIdx rb))) by lia.
      by rewrite drop_insert_lt by lia.
Qed.

(** C1, as the code has it.  After [c + k] pushes onto a new buffer of [c]
    slots, [c] pops succeed and return exactly the last [c] pushed items,
    in slot order from slot 0: first the [k mod c] newest of them, then
    the other [c - k mod c], each group in push order.  The next [Pop]
    reports empty.  The pops come in push order when [k mod c = 0]. *)
Theorem pushes_then_pops (c k : nat) xs :
  (1 <= c)%nat ->
  Z.of_nat c <= max_int ->
  length xs = (c + k)%nat ->
  exists rb rb' popped,
    from_New (Z.of_nat c) (OpPush <$> xs) = Some rb /\
    PopN c rb = Some (rb', popped) /\
    popped = drop (c - k mod c) (drop k xs) ++ take (c - k mod c) (drop k xs) /\
    popped ≡ₚ drop k xs /\
    Pop rb' = Some (rb', (zero_val, false)) /\
    ((k mod c)%nat = 0%nat -> popped = drop k xs).
Proof.
  intros Hc Hmax Hlen.
  destruct (run_pushes c xs Hc Hmax)
    as (rb & Hrun & Hwf & Hr & Hw & Hs & Htake & Hdrop).
  assert (Hq : (length xs mod c)%nat = (k mod c)%nat).
  { rewrite Hlen, Nat.add_comm.
    rewrite <- (Nat.mul_1_l c) at 1. apply Nat.Div0.mod_add. }
  rewrite Hq in *.
  pose proof (Nat.mod_upper_bound k c ltac:(lia)) as Hqc.
  pose proof (wf_len Hwf) as Hl. unfold slice_cap in Hl.
  destruct (PopN_drain (Z.of_nat c) c rb Hwf) as (rb' & HPop & Hwf' & Hs');
    [lia|lia|].
  rewrite Hr in HPop. change (Z.to_nat 0) with 0%nat in HPop.
  rewrite drop_0, take_ge in HPop by lia.
  exists rb, rb', (data rb). split; [done|]. split; [done|].
  assert (Hdata : data rb =
            drop (c - k mod c) (drop k xs) ++ take (c - k mod c) (drop k xs)).
  { rewrite <- (take_drop (k mod c) (data rb)) at 1.
    rewrite Htake, Hdrop by lia. rewrite drop_drop. do 3 f_equal; lia. }
  split; [done|]. split.
  { rewrite Hdata. rewrite Permutation_app_comm. by rewrite take_drop. }
  split; [by apply Pop_size_0|].
  intros E. rewrite Hdata, E, Nat.sub_0_r.
  rewrite drop_ge, take_ge; [done| |]; rewrite length_drop; lia.
Qed.

End Overwrite.

(** * The window of live slots *)

Section Window.
Context {T : Type} `{GoZero T}.
Implicit Types (rb : ringBuffer T) (o : op T) (ops : list (op T)).
Implicit Types (lv : list bool).

Lemma window_inv_New c :
  1 <= c <= max_int ->
  window_inv c (mkRingBuffer (replicate (Z.to_nat c) (zero_val : T))
                  0 c 0 0 0 false)
             (replicate (Z.to_nat c) false).
Proof.
  intros Hc. constructor; cbn.
  - by apply New_wf.
  - by rewrite length_replicate.
  - zbool; lia.
  - intros i Hi. rewrite lookup_replicate_2 by done.
    unfold ahead. zbool; first [done | lia].
Qed.

Lemma window_inv_Push c rb lv item :
  window_inv c rb lv -> IsFull rb = false ->
  exists rb',
    Push rb item = Some rb' /\
    window_inv c rb' (<[Z.to_nat (writerIdx rb) := true]> lv).
Proof.
  intros [Hwf Hlen Hw Hlive] Hfull.
  destruct (Push_keeps_wf c rb item Hwf) as (rb' & HP & Hwf').
  exists rb'. split; [done|].
  rewrite (Push_wf c) in HP by done. injection HP as <-.
  destruct Hwf as [Hc Hcap Hl Hs Hwr Hr].
  unfold IsFull in Hfull. rewrite Hl in Hfull.
  constructor; cbn.
  - done.
  - by rewrite length_insert.
  - zbool; lia.
  - intros i Hi.
    destruct (decide (i = Z.to_nat (writerIdx rb))) as [->|Hne].
    + rewrite list_lookup_insert_eq by lia. f_equal.
      rewrite Z2Nat.id by lia. unfold ahead. zbool; first [done | lia].
    + rewrite list_lookup_insert_ne by done. rewrite Hlive by done. f_equal.
      assert (Z.of_nat i <> writerIdx rb) by lia.
      unfold ahead. zbool; first [done | lia].
Qed.

Lemma window_inv_Pop c rb lv :
  window_inv c rb lv -> size rb <> 0 ->
  exists rb' res,
    Pop rb = Some (rb', res) /\
    window_inv c rb' (<[Z.to_nat (readerIdx rb) := false]> lv).
Proof.
  intros [Hwf Hlen Hw Hlive] Hne.
  destruct (Pop_keeps_wf c rb Hwf) as (rb' & res & HP & Hwf').
  exists rb', res. split; [done|].
  pose proof (wf_size Hwf) as Hs0.
  destruct (Pop_wf c rb Hwf) as (item & _ & HP'); [lia|].
  rewrite HP' in HP. injection HP as <- _.
  destruct Hwf as [Hc Hcap Hl Hs Hwr Hr].
  constructor; cbn.
  - done.
  - by rewrite length_insert.
  - zbool; lia.
  - intros i Hi.
    destruct (decide (i = Z.to_nat (readerIdx rb))) as [->|Hne'].
    + rewrite list_lookup_insert_eq by lia. f_equal.
      rewrite Z2Nat.id by lia. unfold ahead. zbool; first [done | lia].
    + rewrite list_lookup_insert_ne by done. rewrite Hlive by done. f_equal.
      assert (Z.of_nat i <> readerIdx rb) by lia.
      unfold ahead. zbool; first [done | lia].
Qed.

Lemma window_inv_Clear c rb lv :
  window_inv c rb lv -> size rb <> 0 ->
  window_inv c (Clear rb) (replicate (length lv) false).
Proof.
  intros [Hwf Hlen Hw Hlive] Hne.
  pose proof (Clear_keeps_wf c rb Hwf) as Hwf'.
  rewrite Clear_nonempty in * by done.
  destruct Hwf as [Hc Hcap Hl Hs Hwr Hr].
  constructor; cbn.
  - done.
  - by rewrite length_replicate.
  - zbool; lia.
  - intros i Hi. rewrite lookup_replicate_2 by lia.
    unfold ahead. zbool; first [done | lia].
Qed.

Lemma window_inv_step c rb lv o :
  window_inv c rb lv -> keeps_window rb o = true ->
  exists rb', step rb o = Some rb' /\ window_inv c rb' (live_step rb lv o).
Proof.
  intros Hinv Hk. destruct o as [item|item| | | | | | |]; cbn in *.
  - apply window_inv_Push; [done|]. by destruct (IsFull rb).
  - unfold TryPush. destruct (IsFull rb) eqn:E; cbn; [eauto|].
    destruct (window_inv_Push c rb lv item) as (rb' & -> & Hinv'); [done..|].
    cbn. eauto.
  - destruct (size rb =? 0) eqn:E.
    + apply Z.eqb_eq in E. rewrite Pop_size_0 by done. cbn. eauto.
    + apply Z.eqb_neq in E.
      destruct (window_inv_Pop c rb lv) as (rb' & res & -> & Hinv');
        [done..|].
      cbn. eauto.
  - destruct (Get_total c rb) as (res & ->); [by destruct Hinv|]. cbn. eauto.
  - eexists. split; [done|]. destruct (IsEmpty rb) eqn:E.
    + apply IsEmpty_true in E. by rewrite Clear_empty.
    + apply IsEmpty_false in E. by apply window_inv_Clear.
  - rewrite Hk. apply IsEmpty_true in Hk.
    rewrite DeepClear_empty by done. eauto.
  - eauto.
  - eauto.
  - eauto.
Qed.

Lemma window_inv_run c ops :
  forall rb lv,
    window_inv c rb lv -> run_keeps_window rb ops = true ->
    exists rb' lv',
      run_live rb lv ops = Some (rb', lv') /\
      run rb ops = Some rb' /\
      window_inv c rb' lv'.
Proof.
  induction ops as [|o ops IH]; intros rb lv Hinv Hk; cbn in *; [eauto|].
  apply andb_true_iff in Hk as [Hk1 Hk2].
  destruct (window_inv_step c rb lv o) as (rb1 & Hst & Hinv1); [done..|].
  rewrite Hst in *. cbn. by apply IH.
Qed.

(** Under the invariant the flags are the ones the window rule gives. *)
Lemma window_inv_flags c rb lv :
  window_inv c rb lv -> lv = window_flags rb.
Proof.
  intros [[Hc Hcap Hl Hs Hwr Hr] Hlen Hw Hlive].
  unfold window_flags. rewrite Hcap.
  apply (list_eq_same_length _ _ (Z.to_nat c)); [|done|].
  - destruct (size rb =? 0); [by rewrite length_replicate|].
    destruct (size rb =? c); [by rewrite length_replicate|].
    by rewrite length_fmap, length_seq.
  - intros i x y Hi Hx Hy. rewrite Hlive in Hx by done.
    injection Hx as <-.
    destruct (size rb =? 0) eqn:E0.
    { apply lookup_replicate in Hy as [-> _].
      unfold ahead. zbool; first [done | lia]. }
    destruct (size rb =? c) eqn:E1.
    { apply lookup_replicate in Hy as [-> _].
      unfold ahead. zbool; first [done | lia]. }
    rewrite list_lookup_fmap, lookup_seq_lt in Hy by done.
    injection Hy as <-. cbn [Nat.add].
    unfold in_window, ahead. rewrite Hw.
    zbool; cbn; first [done | lia].
Qed.

Lemma window_flags_lookup rb (i : Z) :
  0 <= i < cap rb ->
  window_flags rb !! Z.to_nat i =
    Some (if size rb =? 0 then false
          else if size rb =? cap rb then true
          else in_window (readerIdx rb) (writerIdx rb) i).
Proof.
  intros Hi. unfold window_flags.
  destruct (size rb =? 0); [by rewrite lookup_replicate_2 by lia|].
  destruct (size rb =? cap rb); [by rewrite lookup_replicate_2 by lia|].
  rewrite list_lookup_fmap, lookup_seq_lt by lia. cbn.
  by rewrite Z2Nat.id by lia.
Qed.

(** C2, as the code has it.  Along any sequence of calls on a new buffer
    in which no [Push] is made onto a full buffer and no [DeepClear] on a
    non-empty one, no call panics and in the state reached the live slots
    are exactly those the window rule names: none when [size == 0], all
    when [size == cap], and those of [[readerIdx, writerIdx)] taken modulo
    the capacity otherwise. *)
Theorem window_live_without_overwrite c ops :
  1 <= c <= max_int ->
  from_New_keeps_window c ops = true ->
  exists rb lv,
    from_New_live c ops = Some (rb, lv) /\
    from_New c ops = Some rb /\
    lv = window_flags rb /\
    (forall i, 0 <= i < cap rb ->
       lv !! Z.to_nat i =
         Some (if size rb =? 0 then false
               else if size rb =? cap rb then true
               else in_window (readerIdx rb) (writerIdx rb) i)).
Proof.
  intros Hc Hk. unfold from_New_keeps_window, from_New_live, from_New in *.
  destruct (New_wf (T := T) c Hc) as [HN _]. rewrite HN in *. cbn [data].
  rewrite length_replicate.
  destruct (window_inv_run c ops _ _ (window_inv_New c Hc) Hk)
    as (rb & lv & Hlive & Hrun & Hinv).
  exists rb, lv. split; [done|]. split; [done|].
  pose proof (window_inv_flags c rb lv Hinv) as ->.
  split; [done|]. apply window_flags_lookup.
Qed.

End Window.

(** * Cursors *)

Section Cursors.
Context {T : Type} `{GoZero T}.
Implicit Types (rb : ringBuffer T) (item : T).

(** X1.  On a buffer whose capacity is one [New] accepts, [shiftIdx] moves
    an index inside the slice to its successor modulo the capacity, and
    reports a wrap exactly when the index was the last one. *)
Theorem shiftIdx_mod c rb idx :
  1 <= c <= max_int -> cap rb = c -> 0 <= idx < c ->
  shiftIdx rb idx = ((idx + 1) mod c, bool_decide (idx = c - 1)) /\
  0 <= fst (shiftIdx rb idx) < c.
Proof.
  intros Hc Hcap Hidx. rewrite (shiftIdx_small c) by done.
  destruct (Z.ltb_spec idx (c - 1)).
  - rewrite Z.mod_small by lia. rewrite bool_decide_eq_false_2 by lia.
    cbn. split; [done|lia].
  - replace (idx + 1) with c by lia. rewrite Z.mod_same by lia.
    rewrite bool_decide_eq_true_2 by lia. cbn. split; [done|lia].
Qed.

(** X2.  [Pop] on a non-empty buffer made by [New] returns the item in the
    slot at the read cursor, puts the zero value in that slot and in no
    other, takes one off the size, moves the read cursor on by one modulo
    the capacity, and leaves the write cursor, the last-write index and the
    capacity alone. *)
Theorem Pop_frame c rb :
  wf c rb -> 0 < size rb ->
  exists item rb',
    Pop rb = Some (rb', (item, true)) /\
    data rb !! Z.to_nat (readerIdx rb) = Some item /\
    data rb' !! Z.to_nat (readerIdx rb) = Some zero_val /\
    (forall i : nat,
       i <> Z.to_nat (readerIdx rb) -> data rb' !! i = data rb !! i) /\
    size rb' = size rb - 1 /\
    readerIdx rb' = (readerIdx rb + 1) mod c /\
    writerIdx rb' = writerIdx rb /\
    lastWriterIdx rb' = lastWriterIdx rb /\
    cap rb' = cap rb.
Proof.
  intros Hwf Hpos. destruct (Pop_wf c rb Hwf Hpos) as (item & Hit & HPop).
  eexists item, _. split; [exact HPop|]. cbn.
  destruct Hwf as [Hc Hcap Hl Hs Hw Hr]. unfold slice_cap in Hl.
  split; [done|].
  split; [apply list_lookup_insert_eq; lia|].
  split; [intros i Hi; by apply list_lookup_insert_ne|].
  split; [done|]. split; [|done].
  destruct (Z.ltb_spec (readerIdx rb) (c - 1)).
  - by rewrite Z.mod_small by lia.
  - replace (readerIdx rb + 1) with c by lia. by rewrite Z.mod_same by lia.
Qed.

(** X3.  [Push] on a buffer made by [New] never panics; the size goes up by
    one but not past the capacity, the write cursor moves on by one modulo
    the capacity, the last-write index is the old write cursor, and the
    buffer is not empty afterwards, so [Get] answers with [ok == true]. *)
Theorem Push_occupancy c rb item :
  wf c rb ->
  exists rb',
    Push rb item = Some rb' /\
    wf c rb' /\
    size rb' = Z.min (size rb + 1) c /\
    writerIdx rb' = (writerIdx rb + 1) mod c /\
    lastWriterIdx rb' = writerIdx rb /\
    IsEmpty rb' = false /\
    exists front, Get rb' = Some (front, true).
Proof.
  intros Hwf. destruct (Push_keeps_wf c rb item Hwf) as (rb' & HP & Hwf').
  exists rb'. split; [done|]. split; [done|].
  rewrite (Push_wf c) in HP by done. injection HP as HP.
  pose proof Hwf as [Hc Hcap Hl Hs Hw Hr].
  assert (Hsz : size rb' = Z.min (size rb + 1) c).
  { rewrite <- HP. cbn. zbool; lia. }
  split; [done|]. split.
  { rewrite <- HP. cbn. destruct (Z.ltb_spec (writerIdx rb) (c - 1)).
    - by rewrite Z.mod_small by lia.
    - replace (writerIdx rb + 1) with c by lia.
      by rewrite Z.mod_same by lia. }
  split; [by rewrite <- HP|].
  split; [apply IsEmpty_false; lia|].
  destruct (Get_wf c rb' Hwf') as (front & _ & HG); [lia|]. eauto.
Qed.

(** X4.  On a full buffer made by [New] whose two cursors coincide, [Push]
    overwrites the very slot [Pop] reads next and does not move the read
    cursor: the item just pushed is the next one [Get] and [Pop] return, and
    the size stays at the capacity. *)
Theorem Push_full_front c rb item :
  wf c rb -> size rb = c -> writerIdx rb = readerIdx rb ->
  exists rb' rb'',
    Push rb item = Some rb' /\
    size rb' = c /\
    readerIdx rb' = readerIdx rb /\
    Get rb' = Some (item, true) /\
    Pop rb' = Some (rb'', (item, true)).
Proof.
  intros Hwf Hfull Hcur.
  destruct (Push_keeps_wf c rb item Hwf) as (rb' & HP & Hwf').
  pose proof HP as HP'. rewrite (Push_wf c) in HP' by done.
  injection HP' as HP'.
  pose proof Hwf as [Hc Hcap Hl Hs Hw Hr]. unfold slice_cap in Hl.
  assert (Hsz : size rb' = c) by (rewrite <- HP'; cbn; zbool; lia).
  assert (Hrd : readerIdx rb' = readerIdx rb) by (by rewrite <- HP').
  assert (Hit : data rb' !! Z.to_nat (readerIdx rb') = Some item).
  { rewrite <- HP'. cbn. rewrite Hcur. apply list_lookup_insert_eq. lia. }
  destruct (Get_wf c rb' Hwf') as (x & Hx & HG); [lia|].
  destruct (Pop_wf c rb' Hwf') as (y & Hy & HPop); [lia|].
  assert (x = item) as -> by congruence.
  assert (y = item) as -> by congruence.
  eauto 10.
Qed.

End Cursors.

(** * The items in the buffer *)

Section Contents.
Context {T : Type} `{GoZero T}.
Implicit Types (rb : ringBuffer T) (item : T) (ops : list (op T)).

Lemma contents_length c rb :
  wf c rb -> length (contents rb) = Z.to_nat (size rb).
Proof.
  intros [Hc Hcap Hl Hs Hw Hr]. unfold contents, slice_cap in *.
  rewrite length_take, length_drop, length_app. lia.
Qed.

Lemma contents_lookup c rb (j : nat) :
  wf c rb -> Z.of_nat j < size rb ->
  contents rb !! j =
    data rb !! Z.to_nat (slot c (readerIdx rb) (Z.of_nat j)).
Proof.
  intros [Hc Hcap Hl Hs Hw Hr] Hj. unfold contents, slot, slice_cap in *.
  rewrite lookup_take_lt by lia. rewrite lookup_drop.
  destruct (Z.ltb_spec (readerIdx rb + Z.of_nat j) c).
  - rewrite lookup_app_l by lia. f_equal. lia.
  - rewrite lookup_app_r by lia. f_equal. lia.
Qed.

Lemma contents_empty rb : size rb = 0 -> contents rb = [].
Proof. intros E. unfold contents. by rewrite E. Qed.

(** [Pop] takes the first of the contents. *)
Lemma contents_Pop c rb :
  wf c rb -> 0 < size rb ->
  exists item rb',
    Pop rb = Some (rb', (item, true)) /\
    wf c rb' /\
    size rb' = size rb - 1 /\
    readerIdx rb' = slot c (readerIdx rb) 1 /\
    writerIdx rb' = writerIdx rb /\
    contents rb = item :: contents rb'.
Proof.
  intros Hwf Hpos.
  destruct (Pop_keeps_wf c rb Hwf) as (rb' & res & HP & Hwf').
  destruct (Pop_wf c rb Hwf Hpos) as (item & Hit & HP').
  rewrite HP' in HP. injection HP as HP _.
  exists item, rb'. split; [by rewrite HP', HP|]. split; [done|].
  assert (Hsz : size rb' = size rb - 1) by (by rewrite <- HP).
  split; [done|].
  pose proof Hwf as [Hc Hcap Hl Hs Hw Hr]. unfold slice_cap in Hl.
  split; [rewrite <- HP; cbn; unfold slot; zbool; lia|].
  split; [by rewrite <- HP|].
  apply (list_eq_same_length _ _ (Z.to_nat (size rb))).
  - cbn. rewrite (contents_length c) by done. lia.
  - by apply (contents_length c).
  - intros i x y Hi Hx Hy.
    rewrite (contents_lookup c) in Hx by (done || lia).
    destruct i as [|j]; cbn in Hy.
    + assert (Hs0 : slot c (readerIdx rb) (Z.of_nat 0) = readerIdx rb)
        by (unfold slot; zbool; lia).
      rewrite Hs0 in Hx. congruence.
    + rewrite (contents_lookup c) in Hy by (done || lia).
      rewrite <- HP in Hy. cbn in Hy.
      assert (Hslot :
        slot c (if readerIdx rb <? c - 1 then readerIdx rb + 1 else 0)
             (Z.of_nat j)
        = slot c (readerIdx rb) (Z.of_nat (S j))).
      { unfold slot. zbool; lia. }
      rewrite Hslot in Hy.
      rewrite list_lookup_insert_ne in Hy; [congruence|].
      unfold slot. zbool; lia.
Qed.

(** [Push] with room, the write cursor [size] slots after the read cursor,
    adds the item at the end of the contents. *)
Lemma contents_Push c rb item :
  cursor_inv c rb -> size rb < c ->
  exists rb',
    Push rb item = Some rb' /\
    cursor_inv c rb' /\
    contents rb' = contents rb ++ [item].
Proof.
  intros [Hwf Hcur] Hroom.
  destruct (Push_keeps_wf c rb item Hwf) as (rb' & HP & Hwf').
  exists rb'. split; [done|].
  rewrite (Push_wf c) in HP by done. injection HP as HP.
  pose proof Hwf as [Hc Hcap Hl Hs Hw Hr]. unfold slice_cap in Hl.
  assert (Hsz : size rb' = size rb + 1) by (rewrite <- HP; cbn; zbool; lia).
  split.
  { constructor; [done|]. rewrite <- HP. cbn. rewrite Hcur.
    unfold slot. zbool; lia. }
  apply (list_eq_same_length _ _ (Z.to_nat (size rb'))).
  - rewrite length_app, (contents_length c) by done. cbn. lia.
  - by apply (contents_length c).
  - intros i x y Hi Hx Hy.
    rewrite (contents_lookup c) in Hx by (done || lia).
    rewrite <- HP in Hx. cbn in Hx.
    destruct (decide (Z.of_nat i < size rb)) as [Hlt|Hge].
    + rewrite lookup_app_l in Hy by (rewrite (contents_length c); [lia|done]).
      rewrite (contents_lookup c) in Hy by done.
      rewrite list_lookup_insert_ne in Hx; [congruence|].
      rewrite Hcur. unfold slot. zbool; lia.
    + assert (i = Z.to_nat (size rb)) as -> by lia.
      rewrite lookup_app_r in Hy by (rewrite (contents_length c); [lia|done]).
      rewrite (contents_length c), Nat.sub_diag in Hy by done.
      rewrite Z2Nat.id, <- Hcur in Hx by lia.
      rewrite list_lookup_insert_eq in Hx by lia. cbn in Hy. congruence.
Qed.

Lemma Get_contents c rb :
  wf c rb ->
  Get rb = Some (match contents rb with
                 | item :: _ => (item, true)
                 | [] => (zero_val, false)
                 end).
Proof.
  intros Hwf. destruct (decide (size rb = 0)) as [E|E].
  - by rewrite Get_size_0, contents_empty.
  - pose proof (wf_size Hwf) as Hs.
    destruct (Get_wf c rb Hwf) as (item & Hit & ->); [lia|].
    destruct (contents_Pop c rb Hwf) as (item' & rb' & HP & _ & _ & _ & _ & ->);
      [lia|].
    destruct (Pop_wf c rb Hwf) as (item'' & Hit'' & HP'); [lia|].
    congruence.
Qed.

(** Draining: [n] calls of [Pop], [n] at least the size. *)
Lemma PopN_contents c (n : nat) :
  forall rb,
    wf c rb -> size rb <= Z.of_nat n ->
    exists rb',
      PopN n rb = Some (rb', contents rb) /\
      wf c rb' /\
      size rb' = 0 /\
      writerIdx rb' = writerIdx rb /\
      readerIdx rb' = slot c (readerIdx rb) (size rb).
Proof.
  induction n as [|n IH]; intros rb Hwf Hn.
  - pose proof (wf_size Hwf). pose proof (wf_reader Hwf).
    exists rb. cbn. rewrite contents_empty by lia.
    split; [done|]. split; [done|]. split; [lia|]. split; [done|].
    unfold slot. zbool; lia.
  - destruct (decide (size rb = 0)) as [E|E].
    + pose proof (wf_reader Hwf).
      exists rb. cbn [PopN]. rewrite Pop_size_0 by done. cbn.
      rewrite contents_empty by done.
      split; [done|]. split; [done|]. split; [done|]. split; [done|].
      unfold slot. zbool; lia.
    + pose proof (wf_size Hwf) as Hs. pose proof (wf_reader Hwf) as Hr.
      destruct (contents_Pop c rb Hwf)
        as (item & rb1 & HP & Hwf1 & Hs1 & Hr1 & Hw1 & Hc1); [lia|].
      destruct (IH rb1 Hwf1) as (rb' & HN & Hwf' & Hs' & Hw' & Hr'); [lia|].
      exists rb'. cbn [PopN]. rewrite HP. cbn. rewrite HN. cbn.
      rewrite Hc1.
      split; [done|]. split; [done|]. split; [done|]. split; [congruence|].
      rewrite Hr', Hr1, Hs1. unfold slot. zbool; lia.
Qed.

(** X5.  From any state of a buffer made by [New], exactly [size] calls of
    [Pop] succeed, however many are made: they return, in this order, the
    items in the [size] slots from the read cursor on, around the end of
    the slice, and leave the buffer empty with the read cursor [size] slots
    further and the write cursor where it was; the next [Pop] reports
    empty. *)
Theorem drain_returns_contents c rb (n : nat) :
  wf c rb -> size rb <= Z.of_nat n ->
  exists rb',
    PopN n rb = Some (rb', contents rb) /\
    length (contents rb) = Z.to_nat (size rb) /\
    (forall j : nat, Z.of_nat j < size rb ->
       contents rb !! j =
         data rb !! Z.to_nat ((readerIdx rb + Z.of_nat j) mod c)) /\
    size rb' = 0 /\
    readerIdx rb' = (readerIdx rb + size rb) mod c /\
    writerIdx rb' = writerIdx rb /\
    Pop rb' = Some (rb', (zero_val, false)).
Proof.
  intros Hwf Hn.
  destruct (PopN_contents c n rb Hwf Hn) as (rb' & HN & Hwf' & Hs' & Hw' & Hr').
  pose proof Hwf as [Hc Hcap Hl Hs Hw Hr].
  assert (Hmod : forall j, 0 <= j <= c ->
            (readerIdx rb + j) mod c = slot c (readerIdx rb) j).
  { intros j Hj. unfold slot. destruct (Z.ltb_spec (readerIdx rb + j) c).
    - apply Z.mod_small. lia.
    - symmetry. apply (Z.mod_unique _ _ 1); lia. }
  exists rb'. split; [done|]. split; [by apply (contents_length c)|].
  split.
  { intros j Hj. rewrite Hmod by lia. by apply contents_lookup. }
  split; [done|]. split; [by rewrite Hmod by lia|]. split; [done|].
  by apply Pop_size_0.
Qed.

(** One call that keeps the window, seen on the contents. *)
Lemma cursor_inv_step c rb (o : op T) :
  cursor_inv c rb -> keeps_window rb o = true ->
  exists rb',
    step rb o = Some rb' /\
    cursor_inv c rb' /\
    contents rb' = queue_step c (contents rb) o.
Proof.
  intros Hinv Hk. pose proof Hinv as [Hwf Hcur].
  pose proof Hwf as [Hc Hcap Hl Hs Hw Hr].
  destruct o as [item|item| | | | | | |]; cbn in *.
  - apply negb_true_iff in Hk. unfold IsFull in Hk. rewrite Hl in Hk.
    apply Z.eqb_neq in Hk. apply contents_Push; [done|lia].
  - unfold TryPush, IsFull. rewrite Hl, (contents_length c) by done.
    rewrite Z2Nat.id by lia.
    destruct (Z.eqb_spec (size rb) c) as [E|E]; cbn.
    + exists rb. rewrite E, Z.ltb_irrefl. done.
    + destruct (contents_Push c rb item) as (rb' & -> & Hinv' & Hc');
        [done|lia|].
      cbn. exists rb'. destruct (Z.ltb_spec (size rb) c); [done|lia].
  - destruct (decide (size rb = 0)) as [E|E].
    + rewrite Pop_size_0 by done. cbn. exists rb.
      by rewrite contents_empty.
    + destruct (contents_Pop c rb Hwf)
        as (item & rb' & -> & Hwf' & Hs' & Hr' & Hw' & ->); [lia|].
      cbn. exists rb'. split; [done|]. split; [|done].
      constructor; [done|]. rewrite Hw', Hcur, Hr', Hs'.
      unfold slot. zbool; lia.
  - destruct (Get_total c rb Hwf) as (res & ->). cbn. eauto.
  - eexists. split; [done|]. destruct (decide (size rb = 0)) as [E|E].
    + rewrite Clear_empty by done. by rewrite contents_empty.
    + rewrite Clear_nonempty by done. split; [|done].
      constructor; [constructor; cbn; lia|]. cbn. unfold slot. zbool; lia.
  - apply IsEmpty_true in Hk. rewrite DeepClear_empty by done.
    exists rb. by rewrite contents_empty.
  - eauto.
  - eauto.
  - eauto.
Qed.

Lemma cursor_inv_run c ops :
  forall rb,
    cursor_inv c rb -> run_keeps_window rb ops = true ->
    exists rb',
      run rb ops = Some rb' /\
      cursor_inv c rb' /\
      contents rb' = queue_run c (contents rb) ops.
Proof.
  induction ops as [|o ops IH]; intros rb Hinv Hk; cbn in *; [eauto|].
  apply andb_true_iff in Hk as [Hk1 Hk2].
  destruct (cursor_inv_step c rb o) as (rb1 & Hst & Hinv1 & Hc1); [done..|].
  rewrite Hst in *. cbn. unfold queue_run in *. rewrite <- Hc1. by apply IH.
Qed.

Lemma cursor_inv_New c :
  1 <= c <= max_int ->
  cursor_inv c (mkRingBuffer (replicate (Z.to_nat c) (zero_val : T))
                  0 c 0 0 0 false).
Proof.
  intros Hc. constructor; [by apply New_wf|]. cbn. unfold slot. zbool; lia.
Qed.

(** X6.  Along any sequence of calls on a new buffer in which no [Push] is
    made onto a full buffer and no [DeepClear] on a non-empty one, the
    buffer is a first-in first-out queue of at most [c] items: the items
    it holds, in the order [Pop] will return them, are those of the queue
    after the same calls; [Size] is their number, [Get] shows the first,
    and draining returns them all. *)
Theorem fifo_without_overwrite c ops :
  1 <= c <= max_int ->
  from_New_keeps_window c ops = true ->
  exists rb rb',
    from_New c ops = Some rb /\
    contents rb = queue_run c [] ops /\
    Size rb = Z.of_nat (length (queue_run c [] ops)) /\
    Get rb = Some (match queue_run c [] ops with
                   | item :: _ => (item, true)
                   | [] => (zero_val, false)
                   end) /\
    PopN (Z.to_nat c) rb = Some (rb', queue_run c [] ops).
Proof.
  intros Hc Hk. unfold from_New_keeps_window, from_New in *.
  destruct (New_wf (T := T) c Hc) as [HN _]. rewrite HN in *.
  destruct (cursor_inv_run c ops _ (cursor_inv_New c Hc) Hk)
    as (rb & Hrun & [Hwf Hcur] & Hcont).
  rewrite (contents_empty (mkRingBuffer _ _ _ _ _ _ _)) in Hcont
    by reflexivity.
  pose proof (wf_size Hwf) as Hs.
  destruct (PopN_contents c (Z.to_nat c) rb Hwf) as (rb' & HN' & _); [lia|].
  exists rb, rb'. split; [done|]. split; [done|].
  rewrite <- Hcont. split.
  { unfold Size. rewrite (contents_length c) by done. lia. }
  split; [by apply (Get_contents c)|done].
Qed.

End Contents.

(** * Clients that never overwrite *)

Section NoOverwrite.
Context {T : Type} `{GoZero T}.
Implicit Types (rb : ringBuffer T) (item : T) (ops : list (op T)).
Implicit Types (xs : list T).

Lemma no_overwrite_keeps_window c ops :
  forall rb,
    cursor_inv c rb -> forallb no_overwrite_op ops = true ->
    run_keeps_window rb ops = true.
Proof.
  induction ops as [|o ops IH]; intros rb Hinv Hops; cbn in *; [done|].
  apply andb_true_iff in Hops as [Ho Hops].
  assert (Hk : keeps_window rb o = true) by (by destruct o).
  rewrite Hk. cbn.
  destruct (cursor_inv_step c rb o Hinv Hk) as (rb' & -> & Hinv' & _).
  by apply IH.
Qed.

(** X7.  A client that calls anything but [Push] and [DeepClear] on a new
    buffer ([TryPush] to add) sees a first-in first-out queue bounded by
    the capacity: no call panics, and the items held, in the order [Pop]
    returns them, are those of the queue after the same calls. *)
Theorem fifo_with_TryPush c ops :
  1 <= c <= max_int ->
  forallb no_overwrite_op ops = true ->
  exists rb rb',
    from_New c ops = Some rb /\
    contents rb = queue_run c [] ops /\
    Size rb = Z.of_nat (length (queue_run c [] ops)) /\
    PopN (Z.to_nat c) rb = Some (rb', queue_run c [] ops).
Proof.
  intros Hc Hops.
  pose proof (no_overwrite_keeps_window c ops _ (cursor_inv_New c Hc) Hops)
    as Hk.
  unfold from_New. destruct (New_wf (T := T) c Hc) as [HN _]. rewrite HN.
  destruct (cursor_inv_run c ops _ (cursor_inv_New c Hc) Hk)
    as (rb & Hrun & [Hwf Hcur] & Hcont).
  rewrite (contents_empty (mkRingBuffer _ _ _ _ _ _ _)) in Hcont
    by reflexivity.
  pose proof (wf_size Hwf) as Hs.
  destruct (PopN_contents c (Z.to_nat c) rb Hwf) as (rb' & HN' & _); [lia|].
  exists rb, rb'. split; [done|]. split; [done|]. rewrite <- Hcont.
  split; [|done]. unfold Size. rewrite (contents_length c) by done. lia.
Qed.

Lemma Push_reader rb item rb' :
  Push rb item = Some rb' -> readerIdx rb' = readerIdx rb.
Proof.
  unfold Push. destruct (slice_set _ _ _) as [d|]; cbn; [|done].
  destruct (shiftIdx _ _) as [idx round].
  intros [= <-]. by destruct round, (size rb <? _).
Qed.

Lemma TryPush_all_run xs :
  forall rb, run rb (OpTryPush <$> xs) = fst <$> TryPush_all rb xs.
Proof.
  induction xs as [|x xs IH]; intros rb; cbn; [done|].
  destruct (TryPush rb x) as [[rb1 e]|]; cbn; [|done].
  rewrite IH. by destruct (TryPush_all rb1 xs) as [[rb2 es]|].
Qed.

(** A series of [TryPush] calls on a buffer with the write cursor [size]
    slots after the read cursor: the calls succeed while there is room. *)
Lemma TryPush_all_spec c xs :
  forall rb,
    cursor_inv c rb ->
    exists rb',
      TryPush_all rb xs =
        Some (rb',
              replicate (length xs `min` Z.to_nat (c - size rb)) None ++
              replicate (length xs - Z.to_nat (c - size rb))
                        (Some ErrBufferIsFull)) /\
      cursor_inv c rb' /\
      readerIdx rb' = readerIdx rb /\
      contents rb' = contents rb ++ take (Z.to_nat (c - size rb)) xs.
Proof.
  induction xs as [|x xs IH]; intros rb Hinv.
  - exists rb. cbn. rewrite take_nil, app_nil_r. done.
  - pose proof Hinv as [Hwf Hcur].
    pose proof Hwf as [Hc Hcap Hl Hs Hw Hr].
    cbn [TryPush_all]. unfold TryPush, IsFull. rewrite Hl.
    destruct (Z.eqb_spec (size rb) c) as [E|E]; cbn.
    + destruct (IH rb Hinv) as (rb' & -> & Hinv' & Hr' & Hcont). cbn.
      exists rb'. rewrite Hcont, E, Z.sub_diag. cbn.
      rewrite !take_0, Nat.min_0_r, !Nat.sub_0_r. done.
    + destruct (contents_Push c rb x) as (rb1 & HP & Hinv1 & Hc1);
        [done|lia|].
      rewrite HP.
      cbn. destruct (IH rb1 Hinv1) as (rb' & -> & Hinv' & Hr' & Hcont). cbn.
      exists rb'.
      assert (Hs1 : size rb1 = size rb + 1).
      { pose proof (contents_length c rb1 (ci_wf Hinv1)) as L1.
        pose proof (contents_length c rb Hwf) as L0.
        rewrite Hc1, length_app in L1. cbn in L1.
        pose proof (wf_size (ci_wf Hinv1)). lia. }
      rewrite Hcont, Hc1, Hs1.
      replace (Z.to_nat (c - size rb))
        with (S (Z.to_nat (c - (size rb + 1)))) by lia.
      cbn. rewrite <- app_assoc. cbn.
      split; [done|]. split; [done|]. split; [|done].
      rewrite Hr'. by apply (Push_reader rb x).
Qed.

(** X8.  [TryPush] of the items [xs], one after the other, onto a new
    buffer of [c] slots: the first [c] calls return [nil], every later
    one [ErrBufferIsFull]; the buffer ends up holding the first [c] items
    in the first slots, and draining it returns them in push order. *)
Theorem TryPush_all_keeps_first c xs :
  1 <= c <= max_int ->
  exists rb rb',
    TryPush_all (mkRingBuffer (replicate (Z.to_nat c) zero_val)
                   0 c 0 0 0 false) xs
    = Some (rb,
            replicate (length xs `min` Z.to_nat c) None ++
            replicate (length xs - Z.to_nat c) (Some ErrBufferIsFull)) /\
    from_New c (OpTryPush <$> xs) = Some rb /\
    take (length xs `min` Z.to_nat c) (data rb) = take (Z.to_nat c) xs /\
    Size rb = Z.of_nat (length xs `min` Z.to_nat c) /\
    PopN (Z.to_nat c) rb = Some (rb', take (Z.to_nat c) xs).
Proof.
  intros Hc.
  destruct (TryPush_all_spec c xs _ (cursor_inv_New c Hc))
    as (rb & HT & [Hwf Hcur] & Hr & Hcont).
  cbn [size readerIdx] in HT, Hr, Hcont.
  rewrite (contents_empty (mkRingBuffer _ _ _ _ _ _ _)) in Hcont
    by reflexivity.
  rewrite Z.sub_0_r in HT, Hcont. cbn in Hcont.
  pose proof (wf_size Hwf) as Hs. pose proof (wf_len Hwf) as Hl.
  unfold slice_cap in Hl.
  destruct (PopN_contents c (Z.to_nat c) rb Hwf) as (rb' & HN' & _); [lia|].
  pose proof (contents_length c rb Hwf) as Hlen.
  rewrite Hcont, length_take in Hlen.
  exists rb, rb'. split; [done|]. split.
  { unfold from_New. destruct (New_wf (T := T) c Hc) as [-> _].
    by rewrite TryPush_all_run, HT. }
  split.
  { rewrite <- Hcont. unfold contents. rewrite Hr.
    change (Z.to_nat 0) with 0%nat. rewrite drop_0.
    rewrite take_app_le by lia. f_equal. lia. }
  split; [unfold Size; lia|]. by rewrite <- Hcont.
Qed.

End NoOverwrite.

(** * Clearing *)

Section Clearing.
Context {T : Type} `{GoZero T}.
Implicit Types (rb : ringBuffer T) (item : T) (xs : list T).

(** Pushes that fit, from a state with the write cursor [size] slots after
    the read cursor. *)
Lemma pushes_with_room c xs :
  forall rb,
    cursor_inv c rb -> size rb + Z.of_nat (length xs) <= c ->
    exists rb',
      run rb (OpPush <$> xs) = Some rb' /\
      cursor_inv c rb' /\
      readerIdx rb' = readerIdx rb /\
      size rb' = size rb + Z.of_nat (length xs) /\
      contents rb' = contents rb ++ xs.
Proof.
  induction xs as [|x xs IH]; intros rb Hinv Hroom; cbn in *.
  - exists rb. by rewrite app_nil_r, Z.add_0_r.
  - destruct (contents_Push c rb x) as (rb1 & HP & Hinv1 & Hc1); [done|lia|].
    rewrite HP. cbn.
    assert (Hs1 : size rb1 = size rb + 1).
    { pose proof (contents_length c rb1 (ci_wf Hinv1)) as L1.
      pose proof (contents_length c rb (ci_wf Hinv)) as L0.
      rewrite Hc1, length_app in L1. cbn in L1.
      pose proof (wf_size (ci_wf Hinv1)). pose proof (wf_size (ci_wf Hinv)).
      lia. }
    destruct (IH rb1 Hinv1) as (rb' & Hrun & Hinv' & Hr' & Hs' & Hc'); [lia|].
    exists rb'. split; [done|]. split; [done|].
    split; [rewrite Hr'; by apply (Push_reader rb x)|].
    split; [lia|]. by rewrite Hc', Hc1, <- app_assoc.
Qed.

(** X9.  [Clear] on a non-empty buffer made by [New] makes it reusable: up
    to [c] pushes then land in the first slots in push order over whatever
    the slots held, [Size] is their number, the buffer is full exactly
    after [c] of them, and as many pops return them in push order. *)
Theorem reuse_after_Clear c rb xs :
  wf c rb -> size rb <> 0 -> Z.of_nat (length xs) <= c ->
  exists rb1 rb2,
    run (Clear rb) (OpPush <$> xs) = Some rb1 /\
    Size rb1 = Z.of_nat (length xs) /\
    (IsFull rb1 = true <-> Z.of_nat (length xs) = c) /\
    take (length xs) (data rb1) = xs /\
    PopN (length xs) rb1 = Some (rb2, xs) /\
    IsEmpty rb2 = true.
Proof.
  intros Hwf Hne Hlen. pose proof Hwf as [Hc Hcap Hl Hs Hw Hr].
  assert (Hinv : cursor_inv c (Clear rb)).
  { rewrite Clear_nonempty by done.
    constructor; [constructor; cbn; lia|]. cbn. unfold slot. zbool; lia. }
  destruct (pushes_with_room c xs (Clear rb) Hinv)
    as (rb1 & Hrun & [Hwf1 Hcur1] & Hr1 & Hs1 & Hc1).
  { rewrite Clear_nonempty by done. cbn. lia. }
  rewrite Clear_nonempty in Hr1, Hs1, Hc1 by done.
  cbn [size readerIdx] in Hr1, Hs1.
  rewrite (contents_empty (mkRingBuffer _ _ _ _ _ _ _)) in Hc1
    by reflexivity.
  cbn in Hc1. rewrite Z.add_0_l in Hs1.
  destruct (PopN_contents c (length xs) rb1 Hwf1)
    as (rb2 & HN & _ & Hs2 & _); [lia|].
  exists rb1, rb2. split; [done|]. split; [done|].
  split.
  { rewrite IsFull_true, (wf_len Hwf1). lia. }
  split.
  { rewrite <- Hc1 at 2. unfold contents. rewrite Hr1, Hs1.
    change (Z.to_nat 0) with 0%nat. rewrite drop_0, Nat2Z.id.
    pose proof (wf_len Hwf1) as Hl1. unfold slice_cap in Hl1.
    by rewrite take_app_le by lia. }
  split; [by rewrite Hc1 in HN|]. by apply IsEmpty_true.
Qed.

(** X10.  [DeepClear] (in buffer.go: [Clear]) on a non-empty buffer made by
    [New] puts the zero value in every slot and sets the size to 0, but
    leaves both cursors, the last-write index and the wrapped flag as they
    were.  When the cursors differ, the next [Push] therefore stores its
    item at the write cursor while the next [Pop] reads the zeroed slot at
    the read cursor: it returns the zero value with [ok == true], and the
    buffer is then empty with the item still in its slot. *)
Theorem DeepClear_nonempty_state c rb item :
  wf c rb -> size rb <> 0 ->
  exists rb1,
    DeepClear rb = Some rb1 /\
    Clear_zeroing rb = Some rb1 /\
    rb1 = mkRingBuffer (replicate (Z.to_nat c) zero_val) 0 c
            (writerIdx rb) (readerIdx rb) (lastWriterIdx rb) (wrapped rb) /\
    (writerIdx rb <> readerIdx rb ->
     exists rb2 rb3,
       Push rb1 item = Some rb2 /\
       Pop rb2 = Some (rb3, (zero_val, true)) /\
       size rb3 = 0 /\
       data rb3 !! Z.to_nat (writerIdx rb) = Some item).
Proof.
  intros Hwf Hne. pose proof Hwf as [Hc Hcap Hl Hs Hw Hr].
  unfold Clear_zeroing, DeepClear. rewrite (proj2 (IsEmpty_false rb) Hne).
  destruct (zero_loop_spec (length (data rb)) rb 0 (length (data rb)))
    as (rb1 & Hrun & Hd & Hcap1 & Hw1 & Hr1 & Hlw1 & Hwr1 & Hs1);
    [lia|lia|unfold slice_cap; lia|lia|].
  unfold slice_cap in Hl.
  assert (Hrb1 : rb1 = mkRingBuffer (replicate (Z.to_nat c) zero_val) 0 c
            (writerIdx rb) (readerIdx rb) (lastWriterIdx rb) (wrapped rb)).
  { destruct rb1 as [d s cp w r lw wr]. cbn in *.
    rewrite Hs1 by lia. rewrite Hd, Hcap1, Hw1, Hr1, Hlw1, Hwr1, Hcap.
    change (Z.to_nat 0) with 0%nat. rewrite take_0. cbn [app].
    f_equal; [f_equal|]; lia. }
  exists rb1. split; [done|]. split; [done|]. split; [done|].
  intros Hdiff.
  assert (Hwf1 : wf c rb1).
  { rewrite Hrb1. constructor; cbn; try lia.
    unfold slice_cap. rewrite length_replicate. lia. }
  destruct (Push_keeps_wf c rb1 item Hwf1) as (rb2 & HP & Hwf2).
  pose proof HP as HP'. rewrite (Push_wf c) in HP' by done.
  injection HP' as HP'. rewrite Hrb1 in HP'. cbn in HP'.
  destruct (Pop_keeps_wf c rb2 Hwf2) as (rb3 & res & HPop & Hwf3).
  destruct (Pop_wf c rb2 Hwf2) as (front & Hfront & HPop').
  { rewrite <- HP'. cbn. zbool; lia. }
  rewrite HPop' in HPop. injection HPop as Hrb3 _.
  assert (front = zero_val) as ->.
  { rewrite <- HP' in Hfront. cbn in Hfront.
    rewrite list_lookup_insert_ne in Hfront by lia.
    by apply lookup_replicate in Hfront as [-> _]. }
  exists rb2, rb3. split; [done|]. split; [by rewrite HPop', Hrb3|].
  rewrite <- Hrb3, <- HP'. cbn. split; [zbool; lia|].
  rewrite list_lookup_insert_ne by lia.
  apply list_lookup_insert_eq. rewrite length_replicate. lia.
Qed.

(** X11.  [Clear] is idempotent on every state, and so is [DeepClear] on a
    buffer made by [New]; after either the buffer is empty. *)
Theorem Clear_idempotent c rb :
  wf c rb ->
  Clear (Clear rb) = Clear rb /\
  IsEmpty (Clear rb) = true /\
  exists rb',
    DeepClear rb = Some rb' /\
    DeepClear rb' = Some rb' /\
    IsEmpty rb' = true.
Proof.
  intros Hwf. pose proof Hwf as [Hc Hcap Hl Hs Hw Hr].
  destruct (decide (size rb = 0)) as [E|E].
  - rewrite !Clear_empty by (by rewrite ?Clear_empty).
    split; [done|]. split; [by apply IsEmpty_true|].
    exists rb. rewrite DeepClear_empty by done.
    split; [done|]. split; [done|]. by apply IsEmpty_true.
  - rewrite (Clear_nonempty rb) by done.
    split; [by rewrite Clear_empty|]. split; [done|].
    destruct (DeepClear_nonempty rb) as (rb' & HD & _ & _ & _ & _ & Hs');
      [lia|done|].
    exists rb'. split; [done|].
    rewrite DeepClear_empty by lia. split; [done|].
    apply IsEmpty_true. lia.
Qed.

End Clearing.

(** * After pushes only *)

Section Pushes.
Context {T : Type} `{GoZero T}.
Implicit Types (rb : ringBuffer T) (item : T) (xs : list T).

Lemma mod_differs (i n c : nat) :
  (i < n)%nat -> (n < i + c)%nat -> (i mod c)%nat <> (n mod c)%nat.
Proof.
  intros Hin Hnc E.
  pose proof (Nat.div_mod_eq i c) as Hi.
  pose proof (Nat.div_mod_eq n c) as Hn.
  rewrite E in Hi.
  assert (Hle : (i / c <= n / c)%nat) by (apply Nat.Div0.div_le_mono; lia).
  destruct (decide (i / c = n / c)%nat) as [Eq|Neq]; [rewrite Eq in Hi; lia|].
  assert (Hlt : (S (i / c) <= n / c)%nat) by lia.
  assert (c * S (i / c) <= c * (n / c))%nat by (apply Nat.mul_le_mono_l; lia).
  lia.
Qed.

(** The slots, the wrapped flag and the last-write index after pushing
    [xs] onto a new buffer. *)
Lemma pushes_state (c : nat) xs :
  (1 <= c)%nat -> Z.of_nat c <= max_int ->
  exists rb,
    from_New (Z.of_nat c) (OpPush <$> xs) = Some rb /\
    (forall (i : nat) x,
       xs !! i = Some x -> (length xs <= i + c)%nat ->
       data rb !! (i mod c)%nat = Some x) /\
    (forall j : nat,
       (length xs <= j < c)%nat -> data rb !! j = Some zero_val) /\
    wrapped rb = bool_decide (c <= length xs)%nat /\
    (xs <> [] ->
     lastWriterIdx rb = Z.of_nat ((length xs - 1) mod c)).
Proof.
  intros Hc Hmax. induction xs as [|x xs IH] using rev_ind.
  - destruct (New_wf (T := T) (Z.of_nat c)) as [HN Hwf]; [lia|].
    eexists. unfold from_New. rewrite HN. cbn [fmap list_fmap run].
    split; [done|]. cbn [data wrapped lastWriterIdx length].
    split; [done|]. split.
    { intros j Hj. apply lookup_replicate_2. lia. }
    split; [by rewrite bool_decide_eq_false_2 by lia|done].
  - destruct IH as (rb & Hrun & Hlay & Hzero & Hwr & Hlw).
    destruct (run_pushes c xs Hc Hmax)
      as (rb0 & Hrun0 & Hwf & Hr & Hw & _).
    assert (rb0 = rb) as -> by congruence.
    rewrite fmap_app, from_New_app, Hrun. cbn.
    rewrite (Push_wf (Z.of_nat c)) by done.
    eexists. split; [done|]. cbn [data wrapped lastWriterIdx].
    pose proof (Nat.mod_upper_bound (length xs) c ltac:(lia)) as Hq.
    pose proof (wf_len Hwf) as Hlen. unfold slice_cap in Hlen.
    rewrite Hw, Nat2Z.id, length_app. cbn [length].
    set (n := length xs) in *.
    split.
    { intros i y Hy Hi.
      destruct (decide (i = n)) as [->|Hne].
      - rewrite list_lookup_insert_eq by lia.
        rewrite lookup_app_r in Hy by (fold n; lia).
        fold n in Hy. rewrite Nat.sub_diag in Hy. done.
      - assert (Hin : (i < n)%nat).
        { apply lookup_lt_Some in Hy. rewrite length_app in Hy.
          cbn in Hy. fold n in Hy. lia. }
        rewrite lookup_app_l in Hy by (fold n; lia).
        rewrite list_lookup_insert_ne
          by (intros E; symmetry in E; revert E; apply mod_differs; lia).
        apply Hlay; [done|lia]. }
    split.
    { intros j Hj. rewrite list_lookup_insert_ne.
      - apply Hzero. lia.
      - rewrite Nat.mod_small by lia. lia. }
    split.
    { rewrite Hwr. destruct (Z.ltb_spec (Z.of_nat (n mod c)) (Z.of_nat c - 1)).
      - apply bool_decide_ext.
        destruct (decide (n < c)%nat) as [Hlt|Hge]; [|lia].
        rewrite Nat.mod_small in H0 by lia. lia.
      - rewrite bool_decide_eq_true_2; [done|].
        pose proof (Nat.Div0.mod_le n c). lia. }
    intros _. f_equal. f_equal. lia.
Qed.

(** X12.  After pushing [xs] onto a new buffer of [c] slots, each of the
    last [c] items sits in the slot whose index is its position in [xs]
    modulo [c], and the slots no push reached still hold the zero value. *)
Theorem pushes_layout (c : nat) xs :
  (1 <= c)%nat -> Z.of_nat c <= max_int ->
  exists rb,
    from_New (Z.of_nat c) (OpPush <$> xs) = Some rb /\
    length (data rb) = c /\
    (forall (i : nat) x,
       xs !! i = Some x -> (length xs <= i + c)%nat ->
       data rb !! (i mod c)%nat = Some x) /\
    (forall j : nat,
       (length xs <= j < c)%nat -> data rb !! j = Some zero_val).
Proof.
  intros Hc Hmax.
  destruct (pushes_state c xs Hc Hmax) as (rb & Hrun & Hlay & Hzero & _).
  destruct (run_pushes c xs Hc Hmax) as (rb0 & Hrun0 & Hwf & _).
  assert (rb0 = rb) as -> by congruence.
  pose proof (wf_len Hwf) as Hlen. unfold slice_cap in Hlen.
  exists rb. split; [done|]. split; [lia|]. done.
Qed.

(** X13.  After [n] pushes onto a new buffer of [c] slots: [Size] is the
    smaller of [n] and [c]; the buffer is full exactly when [n >= c] and
    empty exactly when [n = 0]; the write cursor is [n mod c], the read
    cursor still 0, the last-write index [(n - 1) mod c], and the wrapped
    flag is set exactly when the write cursor has gone round, [n >= c]. *)
Theorem pushes_occupancy (c : nat) xs :
  (1 <= c)%nat -> Z.of_nat c <= max_int ->
  exists rb,
    from_New (Z.of_nat c) (OpPush <$> xs) = Some rb /\
    Size rb = Z.of_nat (length xs `min` c) /\
    (IsFull rb = true <-> (c <= length xs)%nat) /\
    (IsEmpty rb = true <-> xs = []) /\
    writerIdx rb = Z.of_nat (length xs mod c) /\
    readerIdx rb = 0 /\
    (wrapped rb = true <-> (c <= length xs)%nat) /\
    (xs <> [] -> lastWriterIdx rb = Z.of_nat ((length xs - 1) mod c)).
Proof.
  intros Hc Hmax.
  destruct (pushes_state c xs Hc Hmax) as (rb & Hrun & _ & _ & Hwr & Hlw).
  destruct (run_pushes c xs Hc Hmax)
    as (rb0 & Hrun0 & Hwf & Hr & Hw & Hs & _).
  assert (rb0 = rb) as -> by congruence.
  exists rb. split; [done|]. split; [done|].
  split; [rewrite IsFull_true, (wf_len Hwf); lia|].
  split.
  { rewrite IsEmpty_true, Hs. destruct xs as [|x xs]; [done|].
    cbn [length]. split; [lia|done]. }
  split; [done|]. split; [done|].
  split; [|done]. rewrite Hwr. apply bool_decide_eq_true.
Qed.

End Pushes.

(** * Edge cases and the earlier revision *)

Section Edges.
Context {T : Type} `{GoZero T}.
Implicit Types (rb : ringBuffer T) (item : T).

(** X14.  A buffer of one slot, in whatever state calls have left it:
    [Push] fills it, [Get] and [Pop] then return the item just pushed, and
    the buffer is empty again. *)
Theorem single_slot_round_trip (ops : list (op T)) rb item :
  from_New 1 ops = Some rb ->
  exists rb1 rb2,
    Push rb item = Some rb1 /\
    IsFull rb1 = true /\
    Get rb1 = Some (item, true) /\
    Pop rb1 = Some (rb2, (item, true)) /\
    IsEmpty rb2 = true /\
    Pop rb2 = Some (rb2, (zero_val, false)).
Proof.
  intros Hrun.
  assert (Hc : 1 <= 1 <= max_int) by (vm_compute; split; discriminate).
  destruct (from_New_wf 1 ops Hc) as (rb0 & Hrun0 & Hwf).
  assert (rb0 = rb) as -> by congruence.
  destruct (Push_keeps_wf 1 rb item Hwf) as (rb1 & HP & Hwf1).
  pose proof HP as HP'. rewrite (Push_wf 1) in HP' by done.
  injection HP' as HP'.
  pose proof Hwf as [_ Hcap Hl Hs Hw Hr]. unfold slice_cap in Hl.
  assert (Hs1 : size rb1 = 1) by (rewrite <- HP'; cbn; zbool; lia).
  assert (Hit : data rb1 !! Z.to_nat (readerIdx rb1) = Some item).
  { rewrite <- HP'. cbn. replace (readerIdx rb) with (writerIdx rb) by lia.
    apply list_lookup_insert_eq. lia. }
  destruct (Get_wf 1 rb1 Hwf1) as (x & Hx & HG); [lia|].
  destruct (Pop_wf 1 rb1 Hwf1) as (y & Hy & HPop); [lia|].
  assert (x = item) as -> by congruence.
  assert (y = item) as -> by congruence.
  eexists rb1, _. split; [done|].
  split; [rewrite IsFull_true, (wf_len Hwf1); lia|].
  split; [done|]. split; [exact HPop|].
  split; [apply IsEmpty_true; cbn; lia|].
  apply Pop_size_0. cbn. lia.
Qed.

Lemma step_go_keeps_wf c rb (o : op_go T) :
  wf c rb -> exists rb', step_go rb o = Some rb' /\ wf c rb'.
Proof.
  intros Hwf. destruct o as [item| | | | | |].
  - apply (step_keeps_wf c rb (OpPush item) Hwf).
  - apply (step_keeps_wf c rb OpPop Hwf).
  - apply (step_keeps_wf c rb OpGet Hwf).
  - apply (step_keeps_wf c rb OpDeepClear Hwf).
  - apply (step_keeps_wf c rb OpIsEmpty Hwf).
  - apply (step_keeps_wf c rb OpIsFull Hwf).
  - apply (step_keeps_wf c rb OpSize Hwf).
Qed.

(** X15.  In the earlier revision (buffer.go), whose [Clear] is the
    zeroing loop, no sequence of calls on a buffer made by [New] panics,
    and every state reached has [0 <= size <= cap], both cursors inside
    [[0, cap)], and [cap] and the number of slots equal to the capacity
    given to [New]. *)
Theorem bounds_reachable_go c (ops : list (op_go T)) :
  1 <= c <= max_int ->
  exists rb,
    from_New_go c ops = Some rb /\
    bounds rb /\
    cap rb = c /\
    slice_cap (data rb) = c.
Proof.
  intros Hc. unfold from_New_go.
  destruct (New_wf (T := T) c Hc) as [-> Hwf0].
  assert (Hrun : forall rb, wf c rb ->
            exists rb', run_go rb ops = Some rb' /\ wf c rb').
  { induction ops as [|o ops IH]; intros rb Hwf; cbn; [eauto|].
    destruct (step_go_keeps_wf c rb o Hwf) as (rb1 & -> & Hwf1).
    cbn. by apply IH. }
  destruct (Hrun _ Hwf0) as (rb & Hr & [_ Hcap Hl Hs Hw Hrd]).
  exists rb. unfold bounds. rewrite Hcap. done.
Qed.

(** X16.  In every state a buffer made by [New] can reach, [IsFull] holds
    exactly when [Size] is the capacity given to [New], [IsEmpty] exactly
    when [Size] is 0, that is, when no [Pop] can succeed, and the buffer is
    never full and empty at once. *)
Theorem full_empty_exclusive c (ops : list (op T)) rb :
  1 <= c <= max_int ->
  from_New c ops = Some rb ->
  (IsFull rb = true <-> Size rb = c) /\
  (IsEmpty rb = true <-> Size rb = 0) /\
  (IsEmpty rb = true <-> Pop rb = Some (rb, (zero_val, false))) /\
  IsFull rb && IsEmpty rb = false.
Proof.
  intros Hc Hrun.
  destruct (from_New_wf c ops Hc) as (rb0 & Hrun0 & Hwf).
  assert (rb0 = rb) as -> by congruence.
  pose proof Hwf as [_ Hcap Hl Hs Hw Hr].
  split; [by rewrite IsFull_true, Hl|].
  split; [apply IsEmpty_true|].
  split.
  { rewrite IsEmpty_true. split; [apply Pop_size_0|].
    intros HP. destruct (decide (size rb = 0)) as [|E]; [done|].
    destruct (Pop_wf c rb Hwf) as (item & _ & HP'); [lia|]. congruence. }
  unfold IsFull, IsEmpty, Size. rewrite Hl. zbool; first [done | lia].
Qed.

End Edges.

(** * Concrete runs on [ringBuffer[int]] *)

(** The slot layouts buffer_test.go expects after pushes. *)
Example push_layout_3_7 :
  data <$> from_New 3 (OpPush <$> [1; 2; 3; 4; 5; 6; 7]) = Some [7; 5; 6].
Proof. reflexivity. Qed.

Example push_layout_5_9 :
  data <$> from_New 5 (OpPush <$> [1; 2; 3; 4; 5; 6; 7; 8; 9])
  = Some [6; 7; 8; 9; 5].
Proof. reflexivity. Qed.

Example push_layout_2_3 :
  data <$> from_New 2 (OpPush <$> [1; 2; 3]) = Some [3; 2].
Proof. reflexivity. Qed.

(** The pop order buffer_test.go expects for capacity 3 and five pushes
    (there with strings): fourth, fifth, third. *)
Example pop_order_3_5 :
  snd <$> (from_New 3 (OpPush <$> [1; 2; 3; 4; 5]) ≫= PopN 3)
  = Some [4; 5; 3].
Proof. reflexivity. Qed.

(** A [DeepClear] of a partly filled buffer leaves the cursors where they
    were: the next item goes to slot 1 while [Pop] reads slot 0. *)
Example DeepClear_keeps_cursors :
  from_New 3 [OpPush 1; OpDeepClear; OpPush 2]
  = Some (mkRingBuffer [0; 2; 0] 1 3 2 0 1 false).
Proof. reflexivity. Qed.

(** C1, counterexample.  Capacity 3 and the pushes 1..7: the three pops
    return 7, 5, 6 and not the last three items in push order, 5, 6, 7. *)
Lemma pop_order_counterexample :
  (from_New 3 (OpPush <$> [1; 2; 3; 4; 5; 6; 7]) ≫= PopN 3)
  = Some (mkRingBuffer [0; 0; 0] 0 3 1 0 0 false, [7; 5; 6]) /\
  drop (7 - 3) [1; 2; 3; 4; 5; 6; 7] = [5; 6; 7] /\
  [7; 5; 6] <> [5; 6; 7].
Proof. split; [reflexivity|]. split; [reflexivity|discriminate]. Qed.

(** C2, counterexample.  Capacity 3, the pushes 1..5 and one pop: the size
    is 2 and the cursors are 1 (read) and 2 (write), so the window names
    slot 1 alone; but slot 2 holds the 3 that was pushed and never popped. *)
Lemma window_counterexample :
  from_New_live 3
    [OpPush 1; OpPush 2; OpPush 3; OpPush 4; OpPush 5; OpPop]
  = Some (mkRingBuffer [0; 5; 3] 2 3 2 1 1 true, [false; true; true]) /\
  window_flags (mkRingBuffer [0; 5; 3] 2 3 2 1 1 true)
  = [false; true; false] /\
  [false; true; true] <> [false; true; false].
Proof. split; [reflexivity|]. split; [reflexivity|discriminate]. Qed.

(** C3, counterexample.  Capacity 1: after [Push(5)] and [Clear()] the
    buffer is empty with 5 still in its slot, and [DeepClear()] returns
    without touching it. *)
Lemma DeepClear_after_Clear_counterexample :
  from_New 1 [OpPush 5; OpClear]
  = Some (mkRingBuffer [5] 0 1 0 0 0 false) /\
  DeepClear (mkRingBuffer [5] 0 1 0 0 0 false)
  = Some (mkRingBuffer [5] 0 1 0 0 0 false) /\
  [5] <> replicate 1 (zero_val : Z).
Proof. split; [reflexivity|]. split; [reflexivity|discriminate]. Qed.

(** ** Instances of the theorems *)

Lemma pushes_then_pops_witness :
  exists rb rb' popped,
    from_New (Z.of_nat 3) (OpPush <$> [1; 2; 3; 4; 5; 6; 7]) = Some rb /\
    PopN 3 rb = Some (rb', popped) /\
    popped = drop (3 - 4 mod 3) (drop 4 [1; 2; 3; 4; 5; 6; 7]) ++
             take (3 - 4 mod 3) (drop 4 [1; 2; 3; 4; 5; 6; 7]) /\
    popped ≡ₚ drop 4 [1; 2; 3; 4; 5; 6; 7] /\
    Pop rb' = Some (rb', (zero_val, false)) /\
    ((4 mod 3)%nat = 0%nat -> popped = drop 4 [1; 2; 3; 4; 5; 6; 7]).
Proof.
  apply (pushes_then_pops 3 4 [1; 2; 3; 4; 5; 6; 7]).
  - lia.
  - vm_compute. discriminate.
  - reflexivity.
Defined.

Lemma window_live_without_overwrite_witness :
  exists rb lv,
    from_New_live 3
      [OpPush 1; OpTryPush 2; OpPop; OpPush 3; OpPush 4; OpTryPush 5; OpPop;
       OpGet; OpPush 6] = Some (rb, lv) /\
    from_New 3
      [OpPush 1; OpTryPush 2; OpPop; OpPush 3; OpPush 4; OpTryPush 5; OpPop;
       OpGet; OpPush 6] = Some rb /\
    lv = window_flags rb /\
    (forall i, 0 <= i < cap rb ->
       lv !! Z.to_nat i =
         Some (if size rb =? 0 then false
               else if size rb =? cap rb then true
               else in_window (readerIdx rb) (writerIdx rb) i)).
Proof.
  apply (window_live_without_overwrite 3
           [OpPush 1; OpTryPush 2; OpPop; OpPush 3; OpPush 4; OpTryPush 5;
            OpPop; OpGet; OpPush 6]).
  - vm_compute. split; discriminate.
  - reflexivity.
Defined.

Lemma DeepClear_spec_witness :
  (exists rb',
     DeepClear (mkRingBuffer [4; 5; 6] 2 3 0 1 2 true) = Some rb' /\
     length (data rb') = 3%nat /\
     data rb' = replicate 3 zero_val /\
     (forall i x, data rb' !! i = Some x -> x = zero_val)) /\
  DeepClear (mkRingBuffer [5] 0 1 0 0 0 false)
  = Some (mkRingBuffer [5] 0 1 0 0 0 false).
Proof.
  split.
  - apply (DeepClear_spec (mkRingBuffer [4; 5; 6] 2 3 0 1 2 true)).
    + vm_compute. discriminate.
    + cbn. lia.
  - apply (DeepClear_spec (mkRingBuffer [5] 0 1 0 0 0 false)).
    + vm_compute. discriminate.
    + reflexivity.
Defined.

Lemma Pop_Get_empty_witness :
  Pop (mkRingBuffer [0; 0] 0 2 1 1 0 false)
  = Some (mkRingBuffer [0; 0] 0 2 1 1 0 false, (zero_val, false)) /\
  Get (mkRingBuffer [0; 0] 0 2 1 1 0 false) = Some (zero_val, false) /\
  (forall ops : list (op Z),
     Forall (fun o => o = OpPop \/ o = OpGet) ops ->
     run (mkRingBuffer [0; 0] 0 2 1 1 0 false) ops
     = Some (mkRingBuffer [0; 0] 0 2 1 1 0 false)).
Proof.
  apply (Pop_Get_empty (mkRingBuffer [0; 0] 0 2 1 1 0 false)).
  reflexivity.
Defined.

Lemma bounds_reachable_witness :
  exists rb,
    from_New 2 [OpPush 1; OpPush 2; OpPush 3; OpPop; OpDeepClear; OpPush 4]
    = Some rb /\
    bounds rb /\
    cap rb = 2 /\
    slice_cap (data rb) = 2 /\
    Size rb <= 2.
Proof.
  apply (bounds_reachable 2
           [OpPush 1; OpPush 2; OpPush 3; OpPop; OpDeepClear; OpPush 4]).
  vm_compute. split; discriminate.
Defined.

Lemma Pop_Get_agree_witness :
  exists item rb',
    data (mkRingBuffer [3; 2] 2 2 1 0 0 true) !! Z.to_nat 0 = Some item /\
    Get (mkRingBuffer [3; 2] 2 2 1 0 0 true) = Some (item, true) /\
    Pop (mkRingBuffer [3; 2] 2 2 1 0 0 true) = Some (rb', (item, true)).
Proof.
  apply (Pop_Get_agree 2 [OpPush 1; OpPush 2; OpPush 3]
           (mkRingBuffer [3; 2] 2 2 1 0 0 true)).
  - vm_compute. split; discriminate.
  - reflexivity.
  - reflexivity.
Defined.

Lemma Push_frame_witness :
  exists rb',
    Push (mkRingBuffer [1; 2; 0] 2 3 2 0 1 false) 9 = Some rb' /\
    data rb' = <[Z.to_nat 2 := 9]> [1; 2; 0] /\
    data rb' !! Z.to_nat 2 = Some 9 /\
    (forall i : nat, i <> Z.to_nat 2 -> data rb' !! i = [1; 2; 0] !! i) /\
    length (data rb') = 3%nat /\
    readerIdx rb' = 0 /\
    cap rb' = 3.
Proof.
  apply (Push_frame (mkRingBuffer [1; 2; 0] 2 3 2 0 1 false) 9).
  vm_compute. split; [discriminate|reflexivity].
Defined.

(** ** Instances of the further theorems *)

Lemma shiftIdx_mod_witness :
  shiftIdx (mkRingBuffer [0; 0; 0] 0 3 0 0 0 false) 2
  = ((2 + 1) mod 3, bool_decide (2 = 3 - 1)) /\
  0 <= fst (shiftIdx (mkRingBuffer [0; 0; 0] 0 3 0 0 0 false) 2) < 3.
Proof.
  apply (shiftIdx_mod 3 (mkRingBuffer [0; 0; 0] 0 3 0 0 0 false) 2).
  - vm_compute. split; discriminate.
  - reflexivity.
  - lia.
Defined.

Lemma Pop_frame_witness :
  exists item rb',
    Pop (mkRingBuffer [7; 0; 6] 2 3 1 2 0 true) = Some (rb', (item, true)) /\
    [7; 0; 6] !! Z.to_nat 2 = Some item /\
    data rb' !! Z.to_nat 2 = Some zero_val /\
    (forall i : nat, i <> Z.to_nat 2 -> data rb' !! i = [7; 0; 6] !! i) /\
    size rb' = 2 - 1 /\
    readerIdx rb' = (2 + 1) mod 3 /\
    writerIdx rb' = 1 /\
    lastWriterIdx rb' = 0 /\
    cap rb' = 3.
Proof.
  apply (Pop_frame 3 (mkRingBuffer [7; 0; 6] 2 3 1 2 0 true)).
  - constructor; vm_compute;
    first [reflexivity | split; first [discriminate | reflexivity]].
  - reflexivity.
Defined.

Lemma Push_occupancy_witness :
  exists rb',
    Push (mkRingBuffer [7; 5; 6] 3 3 2 0 1 true) 9 = Some rb' /\
    wf 3 rb' /\
    size rb' = Z.min (3 + 1) 3 /\
    writerIdx rb' = (2 + 1) mod 3 /\
    lastWriterIdx rb' = 2 /\
    IsEmpty rb' = false /\
    exists front, Get rb' = Some (front, true).
Proof.
  apply (Push_occupancy 3 (mkRingBuffer [7; 5; 6] 3 3 2 0 1 true) 9).
  constructor; vm_compute;
    first [reflexivity | split; first [discriminate | reflexivity]].
Defined.

Lemma Push_full_front_witness :
  exists rb' rb'',
    Push (mkRingBuffer [1; 2; 3] 3 3 0 0 2 true) 4 = Some rb' /\
    size rb' = 3 /\
    readerIdx rb' = 0 /\
    Get rb' = Some (4, true) /\
    Pop rb' = Some (rb'', (4, true)).
Proof.
  apply (Push_full_front 3 (mkRingBuffer [1; 2; 3] 3 3 0 0 2 true) 4).
  - constructor; vm_compute;
    first [reflexivity | split; first [discriminate | reflexivity]].
  - reflexivity.
  - reflexivity.
Defined.

Lemma drain_returns_contents_witness :
  exists rb',
    PopN 5 (mkRingBuffer [7; 0; 6] 2 3 1 2 0 true)
    = Some (rb', contents (mkRingBuffer [7; 0; 6] 2 3 1 2 0 true)) /\
    length (contents (mkRingBuffer [7; 0; 6] 2 3 1 2 0 true)) = Z.to_nat 2 /\
    (forall j : nat, Z.of_nat j < 2 ->
       contents (mkRingBuffer [7; 0; 6] 2 3 1 2 0 true) !! j =
         [7; 0; 6] !! Z.to_nat ((2 + Z.of_nat j) mod 3)) /\
    size rb' = 0 /\
    readerIdx rb' = (2 + 2) mod 3 /\
    writerIdx rb' = 1 /\
    Pop rb' = Some (rb', (zero_val, false)).
Proof.
  apply (drain_returns_contents 3 (mkRingBuffer [7; 0; 6] 2 3 1 2 0 true) 5).
  - constructor; vm_compute;
    first [reflexivity | split; first [discriminate | reflexivity]].
  - vm_compute. discriminate.
Defined.

Lemma fifo_without_overwrite_witness :
  exists rb rb',
    from_New 3 [OpPush 1; OpPush 2; OpPop; OpTryPush 3; OpPush 4; OpTryPush 5]
    = Some rb /\
    contents rb =
      queue_run 3 []
        [OpPush 1; OpPush 2; OpPop; OpTryPush 3; OpPush 4; OpTryPush 5] /\
    Size rb =
      Z.of_nat (length (queue_run 3 []
        [OpPush 1; OpPush 2; OpPop; OpTryPush 3; OpPush 4; OpTryPush 5])) /\
    Get rb =
      Some (match queue_run 3 []
              [OpPush 1; OpPush 2; OpPop; OpTryPush 3; OpPush 4; OpTryPush 5]
            with
            | item :: _ => (item, true)
            | [] => (zero_val, false)
            end) /\
    PopN (Z.to_nat 3) rb =
      Some (rb', queue_run 3 []
        [OpPush 1; OpPush 2; OpPop; OpTryPush 3; OpPush 4; OpTryPush 5]).
Proof.
  apply (fifo_without_overwrite 3
    [OpPush 1; OpPush 2; OpPop; OpTryPush 3; OpPush 4; OpTryPush 5]).
  - vm_compute. split; discriminate.
  - reflexivity.
Defined.

Lemma fifo_with_TryPush_witness :
  exists rb rb',
    from_New 2 [OpTryPush 1; OpTryPush 2; OpTryPush 3; OpPop; OpTryPush 4]
    = Some rb /\
    contents rb =
      queue_run 2 []
        [OpTryPush 1; OpTryPush 2; OpTryPush 3; OpPop; OpTryPush 4] /\
    Size rb =
      Z.of_nat (length (queue_run 2 []
        [OpTryPush 1; OpTryPush 2; OpTryPush 3; OpPop; OpTryPush 4])) /\
    PopN (Z.to_nat 2) rb =
      Some (rb', queue_run 2 []
        [OpTryPush 1; OpTryPush 2; OpTryPush 3; OpPop; OpTryPush 4]).
Proof.
  apply (fifo_with_TryPush 2
    [OpTryPush 1; OpTryPush 2; OpTryPush 3; OpPop; OpTryPush 4]).
  - vm_compute. split; discriminate.
  - reflexivity.
Defined.

Lemma TryPush_all_keeps_first_witness :
  exists rb rb',
    TryPush_all (mkRingBuffer (replicate (Z.to_nat 2) zero_val)
                   0 2 0 0 0 false) [1; 2; 3]
    = Some (rb,
            replicate (length [1; 2; 3] `min` Z.to_nat 2) None ++
            replicate (length [1; 2; 3] - Z.to_nat 2)
                      (Some ErrBufferIsFull)) /\
    from_New 2 (OpTryPush <$> [1; 2; 3]) = Some rb /\
    take (length [1; 2; 3] `min` Z.to_nat 2) (data rb)
    = take (Z.to_nat 2) [1; 2; 3] /\
    Size rb = Z.of_nat (length [1; 2; 3] `min` Z.to_nat 2) /\
    PopN (Z.to_nat 2) rb = Some (rb', take (Z.to_nat 2) [1; 2; 3]).
Proof.
  apply (TryPush_all_keeps_first 2 [1; 2; 3]).
  vm_compute. split; discriminate.
Defined.

Lemma reuse_after_Clear_witness :
  exists rb1 rb2,
    run (Clear (mkRingBuffer [7; 5; 6] 3 3 1 0 0 true)) (OpPush <$> [8; 9])
    = Some rb1 /\
    Size rb1 = Z.of_nat (length [8; 9]) /\
    (IsFull rb1 = true <-> Z.of_nat (length [8; 9]) = 3) /\
    take (length [8; 9]) (data rb1) = [8; 9] /\
    PopN (length [8; 9]) rb1 = Some (rb2, [8; 9]) /\
    IsEmpty rb2 = true.
Proof.
  apply (reuse_after_Clear 3 (mkRingBuffer [7; 5; 6] 3 3 1 0 0 true) [8; 9]).
  - constructor; vm_compute;
    first [reflexivity | split; first [discriminate | reflexivity]].
  - vm_compute. discriminate.
  - vm_compute. discriminate.
Defined.

Lemma DeepClear_nonempty_state_witness :
  exists rb1,
    DeepClear (mkRingBuffer [1; 0; 0] 1 3 1 0 0 false) = Some rb1 /\
    Clear_zeroing (mkRingBuffer [1; 0; 0] 1 3 1 0 0 false) = Some rb1 /\
    rb1 = mkRingBuffer (replicate (Z.to_nat 3) zero_val) 0 3 1 0 0 false /\
    (1 <> 0 ->
     exists rb2 rb3,
       Push rb1 2 = Some rb2 /\
       Pop rb2 = Some (rb3, (zero_val, true)) /\
       size rb3 = 0 /\
       data rb3 !! Z.to_nat 1 = Some 2).
Proof.
  apply (DeepClear_nonempty_state 3
           (mkRingBuffer [1; 0; 0] 1 3 1 0 0 false) 2).
  - constructor; vm_compute;
    first [reflexivity | split; first [discriminate | reflexivity]].
  - vm_compute. discriminate.
Defined.

Lemma Clear_idempotent_witness :
  Clear (Clear (mkRingBuffer [7; 5; 6] 3 3 1 0 0 true))
  = Clear (mkRingBuffer [7; 5; 6] 3 3 1 0 0 true) /\
  IsEmpty (Clear (mkRingBuffer [7; 5; 6] 3 3 1 0 0 true)) = true /\
  exists rb',
    DeepClear (mkRingBuffer [7; 5; 6] 3 3 1 0 0 true) = Some rb' /\
    DeepClear rb' = Some rb' /\
    IsEmpty rb' = true.
Proof.
  apply (Clear_idempotent 3 (mkRingBuffer [7; 5; 6] 3 3 1 0 0 true)).
  constructor; vm_compute;
    first [reflexivity | split; first [discriminate | reflexivity]].
Defined.

Lemma pushes_layout_witness :
  exists rb,
    from_New (Z.of_nat 3) (OpPush <$> [1; 2; 3; 4; 5; 6; 7]) = Some rb /\
    length (data rb) = 3%nat /\
    (forall (i : nat) x,
       [1; 2; 3; 4; 5; 6; 7] !! i = Some x ->
       (length [1; 2; 3; 4; 5; 6; 7] <= i + 3)%nat ->
       data rb !! (i mod 3)%nat = Some x) /\
    (forall j : nat,
       (length [1; 2; 3; 4; 5; 6; 7] <= j < 3)%nat ->
       data rb !! j = Some zero_val).
Proof.
  apply (pushes_layout 3 [1; 2; 3; 4; 5; 6; 7]).
  - lia.
  - vm_compute. discriminate.
Defined.

Lemma pushes_occupancy_witness :
  exists rb,
    from_New (Z.of_nat 3) (OpPush <$> [1; 2; 3; 4]) = Some rb /\
    Size rb = Z.of_nat (length [1; 2; 3; 4] `min` 3) /\
    (IsFull rb = true <-> (3 <= length [1; 2; 3; 4])%nat) /\
    (IsEmpty rb = true <-> [1; 2; 3; 4] = []) /\
    writerIdx rb = Z.of_nat (length [1; 2; 3; 4] mod 3) /\
    readerIdx rb = 0 /\
    (wrapped rb = true <-> (3 <= length [1; 2; 3; 4])%nat) /\
    ([1; 2; 3; 4] <> [] ->
     lastWriterIdx rb = Z.of_nat ((length [1; 2; 3; 4] - 1) mod 3)).
Proof.
  apply (pushes_occupancy 3 [1; 2; 3; 4]).
  - lia.
  - vm_compute. discriminate.
Defined.

Lemma single_slot_round_trip_witness :
  exists rb1 rb2,
    Push (mkRingBuffer [2] 1 1 0 0 0 true) 9 = Some rb1 /\
    IsFull rb1 = true /\
    Get rb1 = Some (9, true) /\
    Pop rb1 = Some (rb2, (9, true)) /\
    IsEmpty rb2 = true /\
    Pop rb2 = Some (rb2, (zero_val, false)).
Proof.
  apply (single_slot_round_trip [OpPush 1; OpPush 2]
           (mkRingBuffer [2] 1 1 0 0 0 true) 9).
  reflexivity.
Defined.

Lemma bounds_reachable_go_witness :
  exists rb,
    from_New_go 2 [GoPush 1; GoPush 2; GoPush 3; GoPop; GoClear; GoPush 4]
    = Some rb /\
    bounds rb /\
    cap rb = 2 /\
    slice_cap (data rb) = 2.
Proof.
  apply (bounds_reachable_go 2
           [GoPush 1; GoPush 2; GoPush 3; GoPop; GoClear; GoPush 4]).
  vm_compute. split; discriminate.
Defined.

Lemma full_empty_exclusive_witness :
  (IsFull (mkRingBuffer [3; 2] 2 2 1 0 0 true) = true <->
   Size (mkRingBuffer [3; 2] 2 2 1 0 0 true) = 2) /\
  (IsEmpty (mkRingBuffer [3; 2] 2 2 1 0 0 true) = true <->
   Size (mkRingBuffer [3; 2] 2 2 1 0 0 true) = 0) /\
  (IsEmpty (mkRingBuffer [3; 2] 2 2 1 0 0 true) = true <->
   Pop (mkRingBuffer [3; 2] 2 2 1 0 0 true)
   = Some (mkRingBuffer [3; 2] 2 2 1 0 0 true, (zero_val, false))) /\
  IsFull (mkRingBuffer [3; 2] 2 2 1 0 0 true)
  && IsEmpty (mkRingBuffer [3; 2] 2 2 1 0 0 true) = false.
Proof.
  apply (full_empty_exclusive 2 [OpPush 1; OpPush 2; OpPush 3]
           (mkRingBuffer [3; 2] 2 2 1 0 0 true)).
  - vm_compute. split; discriminate.
  - reflexivity.
Defined.
